(** * trackr-back: schema validation of entry data

    A shallow embedding of the validation engine of the hobby tracker:
    [Entry.clean] and [Entry._validate_value] of [api/models.py], and
    [EntrySerializer.validate] of [api/serializers.py], followed by the
    properties of the engine.

    Python values are JSON values.  Python exceptions are values of [exn];
    code that can raise returns [exn + A].  [Entry.clean] also prints, so it
    runs in a state-and-error monad over a [world] that holds the entry and
    the standard output. *)

From Stdlib Require Import QArith.
From stdpp Require Import gmap strings list fin_maps sorting.

Local Open Scope string_scope.
Local Open Scope Z_scope.

(** ** JSON values and the Python primitives the validator uses *)

Module Py.

(** What [JSONField] holds.  Python keeps [bool], [int] and [float] apart;
    a float is carried as the rational number it denotes, which is exact
    for the finite floats of JSON: the validator only compares numbers and
    Python compares [int] with [float] by value. *)
#[warnings="-register-all"]
Inductive json : Type :=
  | JNull
  | JBool (b : bool)
  | JInt (z : Z)
  | JFloat (q : Q)
  | JStr (s : string)
  | JList (l : list json)
  | JObj (d : gmap string json).

(** The text of a [ValidationError].  The f-strings of the source are kept
    as a constructor with the formatted value as argument:
    - [MsgUnknownKeys ks] is [f"Unknown field keys: {ks}"],
    - [MsgMin v] is [f"Must be >= {v}."] and [MsgMax v] is
      [f"Must be <= {v}."] (the source writes the signs as one character),
    - [MsgMinItems n] is [f"Must contain at least {n} items."] and
      [MsgMaxItems n] is [f"Must contain at most {n} items."]. *)
Inductive message : Type :=
  | Msg (s : string)
  | MsgUnknownKeys (ks : list string)
  | MsgMin (minv : json)
  | MsgMax (maxv : json)
  | MsgMinItems (min_items : json)
  | MsgMaxItems (max_items : json).

(** The exceptions that occur: Django's [ValidationError], built from one
    message or from a dict of messages, and the two faults of Python's
    dynamic typing. *)
Inductive exn : Type :=
  | ValidationError (m : message)
  | ValidationErrorDict (d : gmap string message)
  | TypeError
  | AttributeError.

Definition bind {A B : Type} (c : exn + A) (k : A → exn + B) : exn + B :=
  match c with
  | inl e => inl e
  | inr a => k a
  end.

Notation "'let*' x := c 'in' k" := (bind c (λ x, k))
  (at level 10, x name, c at level 100, k at level 200).

(** [isinstance(v, str)], [isinstance(v, bool)], [isinstance(v, list)] *)
Definition is_str (v : json) : bool :=
  match v with JStr _ => true | _ => false end.

Definition is_bool (v : json) : bool :=
  match v with JBool _ => true | _ => false end.

Definition is_list (v : json) : bool :=
  match v with JList _ => true | _ => false end.

(** The value of a number; [bool] is a subclass of [int], with [True] being
    1 and [False] being 0. *)
Definition as_number (v : json) : option Q :=
  match v with
  | JBool b => Some (if b then 1%Q else 0%Q)
  | JInt z => Some (inject_Z z)
  | JFloat q => Some q
  | _ => None
  end.

(** [isinstance(v, (int, float))] *)
Definition is_number (v : json) : bool :=
  match as_number v with Some _ => true | None => false end.

(** [v is None] *)
Definition is_none (v : json) : bool :=
  match v with JNull => true | _ => false end.

(** Truth value of [v], as in [if v] and [v or d]. *)
Definition truthy (v : json) : bool :=
  match v with
  | JNull => false
  | JBool b => b
  | JInt z => negb (z =? 0)
  | JFloat q => negb (Qeq_bool q 0)
  | JStr s => negb (s =? "")%string
  | JList l => match l with [] => false | _ => true end
  | JObj d => negb (size d =? 0)%nat
  end.

Definition Qlt_bool (x y : Q) : bool := negb (Qle_bool y x).

(** [a < b] and [a > b] where [a] is a number: another number is compared
    by value, anything else is a [TypeError]. *)
Definition num_lt (a : Q) (b : json) : exn + bool :=
  match as_number b with
  | Some y => inr (Qlt_bool a y)
  | None => inl TypeError
  end.

Definition num_gt (a : Q) (b : json) : exn + bool :=
  match as_number b with
  | Some y => inr (Qlt_bool y a)
  | None => inl TypeError
  end.

(** [len(l)] *)
Definition len (l : list json) : Z := Z.of_nat (length l).

(** [opts.get(k, dflt)]: only a dict has [get]. *)
Definition get (opts : json) (k : string) (dflt : json) : exn + json :=
  match opts with
  | JObj d => inr (default dflt (d !! k))
  | _ => inl AttributeError
  end.

(** [s == c] for a string [s]: a string equals only an equal string. *)
Definition str_eq (s : string) (c : json) : bool :=
  match c with JStr t => (s =? t)%string | _ => false end.

(** [s] occurs in [t] as a substring. *)
Fixpoint is_substring (s t : string) : bool :=
  String.prefix s t ||
  match t with
  | EmptyString => false
  | String _ t' => is_substring s t'
  end.

(** [s in c] for a string [s]: membership in a list, substring of a
    string, key of a dict; other values are not containers. *)
Definition str_in (s : string) (c : json) : exn + bool :=
  match c with
  | JList l => inr (existsb (str_eq s) l)
  | JStr t => inr (is_substring s t)
  | JObj d => inr (bool_decide (s ∈ dom d))
  | _ => inl TypeError
  end.

(** [any(x not in c for x in xs)], left to right, stopping at the first
    hit. *)
Fixpoint any_not_in (xs : list string) (c : json) : exn + bool :=
  match xs with
  | [] => inr false
  | x :: xs' =>
      let* b := str_in x c in
      if negb b then inr true else any_not_in xs' c
  end.

(** The strings of [v] when [v] is a list whose items are all strings:
    [isinstance(v, list) and all(isinstance(x, str) for x in v)]. *)
Definition as_str (v : json) : option string :=
  match v with JStr s => Some s | _ => None end.

Definition as_str_list (v : json) : option (list string) :=
  match v with
  | JList l => mapM as_str l
  | _ => None
  end.

(** [sorted(ks)] for a set of strings: ascending by code point, which for
    UTF-8 strings is ascending by byte. *)
Definition sorted (ks : gset string) : list string :=
  merge_sort String.le (elements ks).

End Py.

(** ** api/models.py *)

Module Models.
Import Py.

(** [FieldDefinition]: one field of the schema of a hobby type.
    [field_type] is the stored string of [FieldType]; [options] is the
    JSON blob of the model, whatever it holds. *)
Record FieldDefinition : Type := {
  key : string;
  label : string;
  field_type : string;
  required : bool;
  options : json;
  order : Z;
}.

(** [HobbyType], reduced to [self.hobby_type.fields.all()]: its field
    definitions in the order of the query ([order], then [id]). *)
Record HobbyType : Type := {
  fields : list FieldDefinition;
}.

(** [Entry], reduced to what [clean] reads.  [hobby_type] is [None] when
    [hobby_type_id] is unset. *)
Record Entry : Type := {
  hobby_type : option HobbyType;
  data : json;
}.

(** The state [clean] runs in: the entry itself and what was printed, one
    item per call of [print]; the item [errors] stands for the printed
    dict [{"data": errors}]. *)
Record world : Type := {
  self : Entry;
  stdout : list (gmap string message);
}.

Definition M (A : Type) : Type := world → (exn + A) * world.

Definition print (errors : gmap string message) : M unit :=
  λ w, (inr (), {| self := self w; stdout := stdout w ++ [errors] |}).

Definition ok : exn + unit := inr ().

Definition invalid (s : string) : exn + unit := inl (ValidationError (Msg s)).

(** The loop over the items of a [list] field. *)
Fixpoint check_items (item_type : json) (items : list json) : exn + unit :=
  match items with
  | [] => ok
  | item :: rest =>
      if str_eq "text" item_type && negb (is_str item) then
        invalid "All items must be strings."
      else if str_eq "number" item_type && negb (is_number item) then
        invalid "All items must be numbers."
      else if str_eq "boolean" item_type && negb (is_bool item) then
        invalid "All items must be booleans."
      else check_items item_type rest
  end.

(** [Entry._validate_value(field, value)] *)
Definition _validate_value (field : FieldDefinition) (value : json) : exn + unit :=
  let ft := field_type field in
  let opts := if truthy (options field) then options field else JObj ∅ in
  if existsb (String.eqb ft) ["text"; "long_text"; "url"] then
    if negb (is_str value) then invalid "Must be a string." else ok
  else if (ft =? "boolean")%string then
    if negb (is_bool value) then invalid "Must be true/false." else ok
  else if (ft =? "number")%string then
    match as_number value with
    | None => invalid "Must be a number."
    | Some v =>
        let* minv := get opts "min" JNull in
        let* maxv := get opts "max" JNull in
        let* below := (if is_none minv then inr false else num_lt v minv) in
        if below then inl (ValidationError (MsgMin minv)) else
        let* above := (if is_none maxv then inr false else num_gt v maxv) in
        if above then inl (ValidationError (MsgMax maxv)) else ok
    end
  else if existsb (String.eqb ft) ["date"; "datetime"] then
    if negb (is_str value) then invalid "Must be an ISO date/datetime string."
    else ok
  else if (ft =? "select")%string then
    let* choices := get opts "choices" (JList []) in
    match value with
    | JStr s =>
        let* bad := (if truthy choices
                     then let* b := str_in s choices in inr (negb b)
                     else inr false) in
        if bad then invalid "Invalid choice." else ok
    | _ => invalid "Must be a string."
    end
  else if (ft =? "multi_select")%string then
    let* choices := get opts "choices" (JList []) in
    match as_str_list value with
    | None => invalid "Must be a list of strings."
    | Some xs =>
        let* bad := (if truthy choices then any_not_in xs choices
                     else inr false) in
        if bad then invalid "Contains invalid choice(s)." else ok
    end
  else if (ft =? "list")%string then
    match value with
    | JList items =>
        let* item_type := get opts "item_type" (JStr "text") in
        let* min_items := get opts "min_items" JNull in
        let* max_items := get opts "max_items" JNull in
        let* short := (if is_none min_items then inr false
                       else num_lt (inject_Z (len items)) min_items) in
        if short then inl (ValidationError (MsgMinItems min_items)) else
        let* long := (if is_none max_items then inr false
                      else num_gt (inject_Z (len items)) max_items) in
        if long then inl (ValidationError (MsgMaxItems max_items)) else
        check_items item_type items
    | _ => invalid "Must be a list."
    end
  else invalid "Unsupported field type.".

(** [v in (None, "", [])]: of the JSON values only these three equal one
    of the three. *)
Definition empty_sentinel (v : json) : bool :=
  match v with
  | JNull => true
  | JStr EmptyString => true
  | JList [] => true
  | _ => false
  end.

(** [self.data.get(key)] *)
Definition data_get (d : gmap string json) (key : string) : json :=
  default JNull (d !! key).

(** [key in self.data and self.data.get(key) not in (None, "", [])] *)
Definition present (d : gmap string json) (key : string) : bool :=
  bool_decide (key ∈ dom d) && negb (empty_sentinel (data_get d key)).

(** One turn of the loop [for f in fields] of [clean], from the error
    dict before to the error dict after.  Only [ValidationError] is
    caught; [e.message] exists for the single-message form only. *)
Definition check_field (d : gmap string json) (errors : gmap string message)
    (f : FieldDefinition) : exn + gmap string message :=
  let key := label f in
  if required f && negb (present d key) then
    inr (<[key := Msg "This field is required."]> errors)
  else if negb (present d key) then inr errors
  else
    let value := data_get d key in
    match _validate_value f value with
    | inr _ => inr errors
    | inl (ValidationError m) => inr (<[key := m]> errors)
    | inl (ValidationErrorDict _) => inl AttributeError
    | inl e => inl e
    end.

(** The whole loop. *)
Fixpoint check_fields (d : gmap string json) (errors : gmap string message)
    (fs : list FieldDefinition) : exn + gmap string message :=
  match fs with
  | [] => inr errors
  | f :: fs' =>
      let* errors' := check_field d errors f in
      check_fields d errors' fs'
  end.

(** [{f.label: f for f in fields}] *)
Definition schema_of (fs : list FieldDefinition) : gmap string FieldDefinition :=
  foldl (λ schema f, <[label f := f]> schema) ∅ fs.

(** [set(self.data.keys()) - set(schema.keys())] *)
Definition unknown_keys (fs : list FieldDefinition) (d : gmap string json) : gset string :=
  dom d ∖ dom (schema_of fs).

(** [Entry.clean(self)]; [super().clean()] does nothing. *)
Definition clean : M unit := λ w,
  match hobby_type (self w) with
  | None => (inr (), w)
  | Some ht =>
      let fields := fields ht in
      match data (self w) with
      | JObj d =>
          let unknown := unknown_keys fields d in
          if negb (size unknown =? 0)%nat then
            (inl (ValidationErrorDict
                    {[ "data" := MsgUnknownKeys (sorted unknown) ]}), w)
          else
            match check_fields d ∅ fields with
            | inl e => (inl e, w)
            | inr errors =>
                if negb (size errors =? 0)%nat then print errors w
                else (inr (), w)
            end
      | _ => (inl AttributeError, w)
      end
  end.

End Models.

(** ** api/serializers.py *)

Module Serializers.
Import Py Models.

(** The [attrs] that [EntrySerializer.validate] receives, reduced to the
    keys it and [Entry.clean] use.  A key is [None] when [attrs] lacks it,
    as in a partial update. *)
Record Attrs : Type := {
  attr_hobby_type : option HobbyType;
  attr_data : option json;
  attr_tags : option (list Z);
}.

(** The [detail] of a [serializers.ValidationError]. *)
Inductive detail : Type :=
  | DetailDict (message_dict : gmap string (list message))
  | DetailList (messages : list message).

(** How [validate] ends when it does not return: with the
    [serializers.ValidationError] it raises, or with an exception of
    [clean] that it does not catch. *)
Inductive failure : Type :=
  | Rejected (d : detail)
  | Uncaught (e : exn).

(** [Entry(owner=request.user, **attrs)], with the model's default for
    [data]. *)
Definition Entry_of (attrs : Attrs) : Entry :=
  {| hobby_type := attr_hobby_type attrs;
     data := default (JObj ∅) (attr_data attrs) |}.

(** [EntrySerializer.validate(self, attrs)], from the standard output
    before to the result and the standard output after.  The tags are
    taken out of [attrs] for [Entry(...)] and put back before [attrs] is
    returned. *)
Definition validate (attrs : Attrs) (out : list (gmap string message))
    : (failure + Attrs) * list (gmap string message) :=
  let entry := Entry_of attrs in
  let '(r, w) := clean {| self := entry; stdout := out |} in
  match r with
  | inl (ValidationErrorDict d) =>
      (inl (Rejected (DetailDict ((λ m, [m]) <$> d))), stdout w)
  | inl (ValidationError m) =>
      (inl (Rejected (DetailList [m])), stdout w)
  | inl e => (inl (Uncaught e), stdout w)
  | inr _ => (inr attrs, stdout w)
  end.

(** [FieldDefinitionSerializer.validate_key(self, key)] (the same method
    is on [SavedViewSerializer]); [inl] carries the message of the
    [serializers.ValidationError] it raises. *)
Definition validate_key (key : string) : string + string :=
  if is_substring "-" key then inl "Use snake_case (no hyphens)."
  else inr key.

(** [Tag], reduced to the columns [validate_tags] reads. *)
Record Tag : Type := {
  tag_id : Z;
  tag_owner_id : Z;
}.

(** [EntrySerializer.validate_tags(self, tags)] for the user [user_id] of
    the request; [inl bad] stands for the [serializers.ValidationError]
    with the message [f"Invalid tag ids: {bad}"]. *)
Definition validate_tags (user_id : Z) (tags : list Tag) : list Z + list Tag :=
  let bad := tag_id <$> filter (λ t, tag_owner_id t ≠ user_id) tags in
  match bad with
  | [] => inr tags
  | _ => inl bad
  end.

(** A row of the table of entries: the columns of the entry that are
    modelled, and its tags. *)
Record Saved : Type := {
  saved_entry : Entry;
  saved_tags : list Z;
}.

(** A write to the table of entries can fail in the database: the columns
    that are left out here have constraints of their own (the title is
    unique).  Whether the database accepts a write is an input,
    [db_accepts], of the functions that write. *)
Inductive database_error : Type :=
  | IntegrityError.

(** [EntrySerializer.create(self, validated_data)], from the table before
    to the entry and the table after.  The tags are set when there are
    some; a new entry has none otherwise. *)
Definition create (validated_data : Attrs) (db_accepts : bool)
    (table : list Saved) : database_error + Entry * list Saved :=
  let tags := default [] (attr_tags validated_data) in
  if db_accepts then
    let entry := Entry_of validated_data in
    inr (entry, (table ++ [ {| saved_entry := entry; saved_tags := tags |} ])%list)
  else inl IntegrityError.

(** The loop [setattr(instance, attr, value)] of [update] over the items
    of [validated_data] without the tags. *)
Definition set_attrs (instance : Entry) (validated_data : Attrs) : Entry :=
  {| hobby_type := match attr_hobby_type validated_data with
                   | Some ht => Some ht
                   | None => hobby_type instance
                   end;
     data := default (data instance) (attr_data validated_data) |}.

(** What [update] works on: the instance in memory, its row in the
    database, and the standard output. *)
Record store : Type := {
  instance : Entry;
  row : Saved;
  printed : list (gmap string message);
}.

(** How [update] ends when it does not return: as [validate] does, or in
    the database. *)
Inductive update_failure : Type :=
  | NotValid (f : failure)
  | NotSaved (e : database_error).

(** [EntrySerializer.update(self, instance, validated_data)].  The
    attributes are set on the instance before [clean] runs; [save] and
    [tags.set] come after it. *)
Definition update (validated_data : Attrs) (db_accepts : bool) (st : store)
    : (update_failure + Entry) * store :=
  let entry := set_attrs (instance st) validated_data in
  let '(r, w) := clean {| self := entry; stdout := printed st |} in
  let failed (f : update_failure) :=
    (inl f, {| instance := entry; row := row st; printed := stdout w |}) in
  match r with
  | inl (ValidationErrorDict d) =>
      failed (NotValid (Rejected (DetailDict ((λ m, [m]) <$> d))))
  | inl (ValidationError m) => failed (NotValid (Rejected (DetailList [m])))
  | inl e => failed (NotValid (Uncaught e))
  | inr _ =>
      if db_accepts then
        (inr entry,
         {| instance := entry;
            row := {| saved_entry := entry;
                      saved_tags := default (saved_tags (row st))
                                            (attr_tags validated_data) |};
            printed := stdout w |})
      else failed (NotSaved IntegrityError)
  end.

End Serializers.

(** ** The vocabulary of the specification *)

Module Spec.
Import Py Models Serializers.

(** [validate(S, R)]: the serializer validates the attributes of an entry
    whose hobby type has the schema [S] and whose data is [R]. *)
Definition attrs_of (S : list FieldDefinition) (R : json) : Attrs :=
  {| attr_hobby_type := Some {| fields := S |};
     attr_data := Some R;
     attr_tags := None |}.

(** The state in which [clean] runs on such an entry, with [out] printed
    so far. *)
Definition world_of (S : list FieldDefinition) (R : json)
    (out : list (gmap string message)) : world :=
  {| self := {| hobby_type := Some {| fields := S |}; data := R |};
     stdout := out |}.

Definition validate_result (S : list FieldDefinition) (R : json) : failure + Attrs :=
  (validate (attrs_of S R) []).1.

Definition Accept (r : failure + Attrs) : Prop := ∃ attrs, r = inr attrs.

Definition Reject (r : failure + Attrs) (errors : gmap string (list message)) : Prop :=
  r = inl (Rejected (DetailDict errors)).

(** The dict that [field.options or {}] is, when it is one: the options
    themselves, or the empty dict in place of falsy options. *)
Definition options_dict (f : FieldDefinition) : option (gmap string json) :=
  match options f with
  | JObj d => Some d
  | v => if truthy v then None else Some ∅
  end.

(** The options of section 3 of the specification, type by type: the
    options of a number, select, multi-select or list field are a dict in
    which a bound is a number when it is set and [choices] is a list when
    it is set.  An option is unset when the dict lacks it or holds [null]
    for it.  The other types have no options to type. *)
Definition bound_ok (o : option json) : bool :=
  match o with
  | None => true
  | Some v => is_none v || is_number v
  end.

Definition choices_ok (o : option json) : bool :=
  match o with
  | None => true
  | Some v => is_none v || is_list v
  end.

Definition well_typed (f : FieldDefinition) : bool :=
  let ft := field_type f in
  if (ft =? "number")%string then
    match options_dict f with
    | Some d => bound_ok (d !! "min") && bound_ok (d !! "max")
    | None => false
    end
  else if (ft =? "select")%string || (ft =? "multi_select")%string then
    match options_dict f with
    | Some d => choices_ok (d !! "choices")
    | None => false
    end
  else if (ft =? "list")%string then
    match options_dict f with
    | Some d => bound_ok (d !! "min_items") && bound_ok (d !! "max_items")
    | None => false
    end
  else true.

(** An option that holds [null] is unset. *)
Definition set_value (o : option json) : option json :=
  match o with
  | Some JNull => None
  | _ => o
  end.

(** The option [k] of [f], when it is set. *)
Definition option_of (f : FieldDefinition) (k : string) : option json :=
  match options f with
  | JObj d => set_value (d !! k)
  | _ => None
  end.

(** The numeric bound [k] of [f], when it is set to a number. *)
Definition bound_of (f : FieldDefinition) (k : string) : option Q :=
  option_of f k ≫= as_number.

(** The choices of [f]; none when unset. *)
Definition choices_of (f : FieldDefinition) : list json :=
  match option_of f "choices" with
  | Some (JList l) => l
  | _ => []
  end.

(** The item type of a list field: text when the dict lacks it. *)
Definition item_type_of (f : FieldDefinition) : json :=
  match options f with
  | JObj d => default (JStr "text") (d !! "item_type")
  | _ => JStr "text"
  end.

(** The check that an item type asks of every item, and the message of
    its failure. *)
Definition item_ok (t : string) (item : json) : bool :=
  if (t =? "text")%string then is_str item
  else if (t =? "number")%string then is_number item
  else if (t =? "boolean")%string then is_bool item
  else true.

Definition item_message (t : string) : string :=
  if (t =? "text")%string then "All items must be strings."
  else if (t =? "number")%string then "All items must be numbers."
  else "All items must be booleans.".

(** The two comparisons with the bounds that number fields and list
    fields share: [x] against [minv] and [maxv], with the messages
    [mk_min] and [mk_max], and [k] to follow. *)
Definition range_check (x : Q) (minv maxv : json)
    (mk_min mk_max : json → message) (k : exn + unit) : exn + unit :=
  let* below := (if is_none minv then inr false else num_lt x minv) in
  if below then inl (ValidationError (mk_min minv)) else
  let* above := (if is_none maxv then inr false else num_gt x maxv) in
  if above then inl (ValidationError (mk_max maxv)) else k.

(** A check that ends well or with a [ValidationError] of one message,
    which the loop of [clean] catches. *)
Definition caught (r : exn + unit) : Prop :=
  (∃ u, r = inr u) ∨ (∃ m, r = inl (ValidationError m)).

(** The per-field check of [f] on the record [d] fails with message [m]. *)
Definition field_fails (d : gmap string json) (f : FieldDefinition) (m : message) : Prop :=
  (required f = true ∧ present d (label f) = false
   ∧ m = Msg "This field is required.")
  ∨ (present d (label f) = true
     ∧ _validate_value f (data_get d (label f)) = inl (ValidationError m)).

(** What one turn of the loop of [clean] does to the error dict: the four
    ways in which it goes on, and the one in which an exception other than
    a caught [ValidationError] ends the loop. *)
Inductive turn (d : gmap string json) (f : FieldDefinition)
    (errors : gmap string message) : exn + gmap string message → Prop :=
  | turn_required :
      required f = true → present d (label f) = false →
      turn d f errors (inr (<[label f := Msg "This field is required."]> errors))
  | turn_skipped :
      required f = false → present d (label f) = false →
      turn d f errors (inr errors)
  | turn_passed u :
      present d (label f) = true →
      _validate_value f (data_get d (label f)) = inr u →
      turn d f errors (inr errors)
  | turn_failed m :
      present d (label f) = true →
      _validate_value f (data_get d (label f)) = inl (ValidationError m) →
      turn d f errors (inr (<[label f := m]> errors))
  | turn_fault e :
      present d (label f) = true →
      _validate_value f (data_get d (label f)) = inl e →
      (∀ m, e ≠ ValidationError m) →
      turn d f errors (inl (match e with
                            | ValidationErrorDict _ => AttributeError
                            | _ => e
                            end)).

(** [f] with another key. *)
Definition with_key (k : string) (f : FieldDefinition) : FieldDefinition :=
  {| key := k; label := label f; field_type := field_type f;
     required := required f; options := options f; order := order f |}.

(** The message with which the per-field check of [f] on the record [d]
    fails, if it fails. *)
Definition failure_of (d : gmap string json) (f : FieldDefinition) : option message :=
  if present d (label f) then
    match _validate_value f (data_get d (label f)) with
    | inl (ValidationError m) => Some m
    | _ => None
    end
  else if required f then Some (Msg "This field is required.")
  else None.

(** The per-field check of [f] on the record [d] ends in an exception
    that the loop of [clean] does not catch. *)
Definition faults (d : gmap string json) (f : FieldDefinition) : Prop :=
  present d (label f) = true
  ∧ ∃ e, _validate_value f (data_get d (label f)) = inl e
         ∧ ∀ m, e ≠ ValidationError m.

(** The data of an entry with a hobby type is a dict, and each of its
    keys is the label of a field of the hobby type. *)
Definition known_keys_only (e : Entry) : Prop :=
  ∀ ht, hobby_type e = Some ht →
    ∃ d, data e = JObj d ∧ ∀ k, k ∈ dom d → ∃ f, f ∈ fields ht ∧ label f = k.

(** The field types that [_validate_value] knows. *)
Definition field_types : list string :=
  ["text"; "long_text"; "url"; "boolean"; "number"; "date"; "datetime";
   "select"; "multi_select"; "list"].

(** A check that, when it raises, raises a [ValidationError] of one
    message, a [TypeError] or an [AttributeError]. *)
Definition raises_plainly {A : Type} (r : exn + A) : Prop :=
  ∀ e, r = inl e →
    (∃ m, e = ValidationError m) ∨ e = TypeError ∨ e = AttributeError.

End Spec.

(** ** Schemas and records of the examples *)

Module Fixtures.
Import Py Models Serializers Spec.

Definition field (k l t : string) (req : bool) (opts : json) : FieldDefinition :=
  {| key := k; label := l; field_type := t; required := req;
     options := opts; order := 0 |}.

(** A number field with [min = 0] and [max = 10]. *)
Definition rating : FieldDefinition :=
  field "rating" "rating" "number" true
        (JObj {[ "min" := JInt 0; "max" := JInt 10 ]}).

Definition title : FieldDefinition :=
  field "title" "title" "text" false (JObj ∅).

(** The floats nearest to -0.01 and to 10.01. *)
Definition minus_0_01 : json :=
  JFloat (-5764607523034235 # 576460752303423488).

Definition plus_10_01 : json :=
  JFloat (5635129033747333 # 562949953421312).

(** The schema and the record of the unknown-key example. *)
Definition movies : list FieldDefinition := [title; rating].

Definition bogus_record : gmap string json :=
  {[ "title" := JStr "x"; "rating" := JInt 5;
     "bogus" := JInt 1; "extra" := JInt 2 ]}.

(** A list field of one to three numbers. *)
Definition scores : FieldDefinition :=
  field "scores" "scores" "list" false
        (JObj {[ "item_type" := JStr "number";
                 "min_items" := JInt 1; "max_items" := JInt 3 ]}).

(** A select field and a required multi-select field with choices. *)
Definition status : FieldDefinition :=
  field "status" "status" "select" false
        (JObj {[ "choices" :=
                   JList [JStr "to_watch"; JStr "watching"; JStr "watched"] ]}).

Definition tags : FieldDefinition :=
  field "tags" "tags" "multi_select" true
        (JObj {[ "choices" := JList [JStr "drama"; JStr "comedy"] ]}).

(** A required text field, and a record that lacks it and has a key the
    schema does not know. *)
Definition required_title : FieldDefinition :=
  field "title" "title" "text" true (JObj ∅).

Definition bogus_only : gmap string json := {[ "bogus" := JInt 1 ]}.

(** A number field whose lower bound is a string. *)
Definition rating_low : FieldDefinition :=
  field "rating" "rating" "number" false (JObj {[ "min" := JStr "low" ]}).

(** Two fields, each labelled with the key of the other. *)
Definition name_as_title : FieldDefinition :=
  field "name" "title" "text" false (JObj ∅).

Definition title_as_name : FieldDefinition :=
  field "title" "name" "text" false (JObj ∅).

(** A field whose label is not its key, alone in its schema. *)
Definition rating_labelled : FieldDefinition :=
  field "rating" "Rating" "number" false (JObj ∅).

(** A date field, a field of a type the validator does not know, and an
    optional number field. *)
Definition released : FieldDefinition :=
  field "released" "released" "date" false (JObj ∅).

Definition colour : FieldDefinition :=
  field "colour" "colour" "color" false (JObj ∅).

Definition pages : FieldDefinition :=
  field "pages" "pages" "number" false (JObj {[ "min" := JInt 1 ]}).

(** A saved entry of the movies, and attributes of partial updates. *)
Definition a_movie : Entry :=
  {| hobby_type := Some {| fields := movies |};
     data := JObj {[ "title" := JStr "x"; "rating" := JInt 5 ]} |}.

Definition a_store : store :=
  {| instance := a_movie;
     row := {| saved_entry := a_movie; saved_tags := [1] |};
     printed := [] |}.

Definition bogus_patch : Attrs :=
  {| attr_hobby_type := None;
     attr_data := Some (JObj bogus_only);
     attr_tags := Some [2; 3] |}.

Definition rating_patch : Attrs :=
  {| attr_hobby_type := None;
     attr_data := Some (JObj {[ "rating" := JInt 9 ]});
     attr_tags := Some [2; 3] |}.

(** Two fields with one label: a number field after a text field. *)
Definition year_text : FieldDefinition :=
  field "year_text" "year" "text" false (JObj ∅).

Definition year_number : FieldDefinition :=
  field "year_number" "year" "number" false (JObj {[ "max" := JInt 2100 ]}).

(** A list field whose item type is none of the three. *)
Definition dates : FieldDefinition :=
  field "dates" "dates" "list" false
        (JObj {[ "item_type" := JStr "date"; "max_items" := JInt 2 ]}).

(** A select field whose options are a list. *)
Definition status_list : FieldDefinition :=
  field "status" "status" "select" false (JList [JStr "to_watch"]).

End Fixtures.

(** ** Properties *)

Import Py Models Serializers Spec Fixtures.

Lemma validate_value_number f v :
  field_type f = "number" →
  _validate_value f v =
    let opts := if truthy (options f) then options f else JObj ∅ in
    match as_number v with
    | None => invalid "Must be a number."
    | Some x =>
        let* minv := get opts "min" JNull in
        let* maxv := get opts "max" JNull in
        let* below := (if is_none minv then inr false else num_lt x minv) in
        if below then inl (ValidationError (MsgMin minv)) else
        let* above := (if is_none maxv then inr false else num_gt x maxv) in
        if above then inl (ValidationError (MsgMax maxv)) else ok
    end.
Proof. intros Hft. unfold _validate_value. rewrite Hft. reflexivity. Qed.

(** *** The schema map and the unknown keys *)

Lemma dom_schema_of_foldl (fs : list FieldDefinition) (m : gmap string FieldDefinition) :
  dom (foldl (λ schema f, <[label f := f]> schema) m fs)
  = dom m ∪ list_to_set (label <$> fs).
Proof.
  revert m. induction fs as [|f fs IH]; intros m; simpl.
  - set_solver.
  - rewrite IH, dom_insert_L. set_solver.
Qed.

Lemma dom_schema_of (fs : list FieldDefinition) :
  dom (schema_of fs) = list_to_set (label <$> fs).
Proof. unfold schema_of. rewrite dom_schema_of_foldl. set_solver. Qed.

Lemma elem_of_unknown_keys (fs : list FieldDefinition) (d : gmap string json) k :
  k ∈ unknown_keys fs d ↔ k ∈ dom d ∧ ∀ f, f ∈ fs → label f ≠ k.
Proof.
  unfold unknown_keys. rewrite dom_schema_of, elem_of_difference.
  rewrite elem_of_list_to_set, list_elem_of_fmap. naive_solver.
Qed.

Lemma size_zero_iff (X : gset string) : (size X =? 0)%nat = true ↔ X = ∅.
Proof. rewrite Nat.eqb_eq, size_empty_iff. by unfold_leibniz. Qed.

Lemma sorted_spec (X : gset string) :
  StronglySorted String.le (sorted X) ∧ NoDup (sorted X)
  ∧ ∀ k, k ∈ sorted X ↔ k ∈ X.
Proof.
  unfold sorted. split; [|split].
  - apply StronglySorted_merge_sort; apply _.
  - rewrite merge_sort_Permutation. apply NoDup_elements.
  - intros k. rewrite merge_sort_Permutation. apply elem_of_elements.
Qed.

Lemma clean_unknown (fs : list FieldDefinition) (d : gmap string json) out :
  unknown_keys fs d ≠ ∅ →
  clean {| self := {| hobby_type := Some {| fields := fs |}; data := JObj d |};
           stdout := out |}
  = (inl (ValidationErrorDict
            {[ "data" := MsgUnknownKeys (sorted (unknown_keys fs d)) ]}),
     {| self := {| hobby_type := Some {| fields := fs |}; data := JObj d |};
        stdout := out |}).
Proof.
  intros Hne. unfold clean. simpl.
  destruct (size (unknown_keys fs d) =? 0)%nat eqn:E; [|done].
  apply size_zero_iff in E. done.
Qed.

Lemma validate_unknown (fs : list FieldDefinition) (d : gmap string json) out :
  unknown_keys fs d ≠ ∅ →
  validate (attrs_of fs (JObj d)) out
  = (inl (Rejected (DetailDict
       {[ "data" := [MsgUnknownKeys (sorted (unknown_keys fs d))] ]})), out).
Proof.
  intros Hne. unfold validate, attrs_of, Entry_of. simpl.
  rewrite clean_unknown by done. simpl. by rewrite map_fmap_singleton.
Qed.

(** C3: when some key of the record is not recognised by the schema,
    [validate] rejects with one entry, under ["data"], whose message lists
    the unknown keys, each once, in ascending order. *)
Theorem unknown_keys_rejected (S : list FieldDefinition) (R : gmap string json) :
  unknown_keys S R ≠ ∅ →
  ∃ ks : list string,
    Reject (validate_result S (JObj R)) {[ "data" := [MsgUnknownKeys ks] ]}
    ∧ StronglySorted String.le ks ∧ NoDup ks
    ∧ ∀ k, k ∈ ks ↔ k ∈ dom R ∧ ∀ f, f ∈ S → label f ≠ k.
Proof.
  intros Hne. exists (sorted (unknown_keys S R)).
  destruct (sorted_spec (unknown_keys S R)) as (Hs & Hn & Hm).
  split; [|split; [done|split; [done|]]].
  - unfold Reject, validate_result. by rewrite validate_unknown.
  - intros k. rewrite Hm. apply elem_of_unknown_keys.
Qed.

Lemma unknown_keys_rejected_witness :
  ∃ ks : list string,
    Reject (validate_result movies (JObj bogus_record))
           {[ "data" := [MsgUnknownKeys ks] ]}
    ∧ StronglySorted String.le ks ∧ NoDup ks
    ∧ ∀ k, k ∈ ks ↔ k ∈ dom bogus_record ∧ ∀ f, f ∈ movies → label f ≠ k.
Proof.
  apply (unknown_keys_rejected movies bogus_record).
  vm_compute. discriminate.
Defined.

Example unknown_keys_aggregated :
  validate_result movies (JObj bogus_record)
  = inl (Rejected (DetailDict
      {[ "data" := [MsgUnknownKeys ["bogus"; "extra"]] ]})).
Proof. vm_compute. reflexivity. Qed.

(** *** The loop over the fields *)

Lemma check_field_turn d errors f : turn d f errors (check_field d errors f).
Proof.
  unfold check_field.
  destruct (present d (label f)) eqn:Hp, (required f) eqn:Hr; simpl;
    try (by constructor).
  all: destruct (_validate_value f (data_get d (label f))) as [[m|x| |]|u] eqn:Hv.
  all: try (by eapply turn_passed).
  all: try (by eapply turn_failed).
  all: try (by apply (turn_fault d f errors _ Hp Hv)).
Qed.

Lemma check_field_no_validation_error d errors f :
  (∀ m, check_field d errors f ≠ inl (ValidationError m))
  ∧ (∀ x, check_field d errors f ≠ inl (ValidationErrorDict x)).
Proof.
  destruct (check_field_turn d errors f) as [| | | |e Hp Hv Hne];
    try (split; congruence).
  destruct e; split; congruence.
Qed.

Lemma check_fields_no_validation_error d fs : ∀ errors,
  (∀ m, check_fields d errors fs ≠ inl (ValidationError m))
  ∧ (∀ x, check_fields d errors fs ≠ inl (ValidationErrorDict x)).
Proof.
  induction fs as [|f fs IH]; intros errors; simpl; [split; congruence|].
  destruct (check_field d errors f) as [e|errors'] eqn:E; simpl.
  - rewrite <- E. apply check_field_no_validation_error.
  - apply IH.
Qed.

Lemma field_fails_turn d f errors errors' :
  check_field d errors f = inr errors' →
  (errors' = errors ∧ ∀ m, ¬ field_fails d f m)
  ∨ (∃ m, errors' = <[label f := m]> errors ∧ field_fails d f m).
Proof.
  intros E. pose proof (check_field_turn d errors f) as T. rewrite E in T.
  unfold field_fails.
  inversion T as [Hr Hp| Hr Hp|u Hp Hv|m Hp Hv|]; subst.
  - right. eexists. split; [done|]. left. done.
  - left. split; [done|]. intros m [(?&?&?)|(?&?)]; congruence.
  - left. split; [done|]. intros m [(?&?&?)|(?&?)]; congruence.
  - right. exists m. split; [done|]. right. done.
Qed.

(** Every entry of the error dict is the failure of a field with that
    label, or was there before the loop. *)
Lemma check_fields_sound d fs : ∀ errors errors',
  check_fields d errors fs = inr errors' →
  ∀ k m, errors' !! k = Some m →
    errors !! k = Some m ∨ ∃ f, f ∈ fs ∧ label f = k ∧ field_fails d f m.
Proof.
  induction fs as [|f fs IH]; intros errors errors' E k m Hk; simpl in E.
  - left. congruence.
  - destruct (check_field d errors f) as [e|errors1] eqn:E1; simpl in E; [done|].
    destruct (IH _ _ E k m Hk) as [H1|(g & Hg & Hl & Hf)].
    + destruct (field_fails_turn _ _ _ _ E1) as [[-> _]|(m' & -> & Hf)].
      * by left.
      * destruct (decide (label f = k)) as [<-|Hne].
        -- rewrite lookup_insert_eq in H1. injection H1 as ->.
           right. exists f. split; [left|]; done.
        -- rewrite lookup_insert_ne in H1 by done. by left.
    + right. exists g. split; [by right|done].
Qed.

(** No entry is lost, and every failing field has one under its label. *)
Lemma check_fields_complete d fs : ∀ errors errors',
  check_fields d errors fs = inr errors' →
  (∀ k, is_Some (errors !! k) → is_Some (errors' !! k))
  ∧ ∀ f m, f ∈ fs → field_fails d f m → is_Some (errors' !! label f).
Proof.
  induction fs as [|f fs IH]; intros errors errors' E; simpl in E.
  - injection E as <-. split; [done|]. intros f m Hf. by apply elem_of_nil in Hf.
  - destruct (check_field d errors f) as [e|errors1] eqn:E1; simpl in E; [done|].
    destruct (IH _ _ E) as [Hkeep Hall].
    assert (∀ k, is_Some (errors !! k) → is_Some (errors1 !! k)) as Hstep.
    { intros k Hk.
      destruct (field_fails_turn _ _ _ _ E1) as [[-> _]|(m' & -> & _)]; [done|].
      rewrite lookup_insert. case_decide; [by eexists|done]. }
    split; [by eauto|].
    intros g m Hg Hf. apply elem_of_cons in Hg as [->|Hg]; [|by eauto].
    apply Hkeep.
    destruct (field_fails_turn _ _ _ _ E1) as [[-> Hno]|(m' & -> & _)].
    + by destruct (Hno m).
    + rewrite lookup_insert_eq. by eexists.
Qed.

(** *** Options *)

Lemma Qlt_bool_true x y : Qlt_bool x y = true ↔ (x < y)%Q.
Proof.
  unfold Qlt_bool. rewrite negb_true_iff, <- not_true_iff_false, Qle_bool_iff.
  split; [apply Qnot_le_lt | apply Qlt_not_le].
Qed.

Lemma Qlt_bool_false x y : Qlt_bool x y = false ↔ (y <= x)%Q.
Proof. unfold Qlt_bool. by rewrite negb_false_iff, Qle_bool_iff. Qed.

(** [field.options or {}] is the dict of the options, and it holds what
    [options] holds. *)
Lemma options_dict_opts f d :
  options_dict f = Some d →
  (if truthy (options f) then options f else JObj ∅) = JObj d
  ∧ (∀ k, option_of f k = set_value (d !! k))
  ∧ item_type_of f = default (JStr "text") (d !! "item_type").
Proof.
  unfold options_dict, option_of, item_type_of.
  destruct (options f) as [|b|z|q|s|l|d'] eqn:Ho.
  7: { intros [= ->]. repeat split; try done.
       simpl. destruct (size d =? 0)%nat eqn:Hs; [|done]. simpl.
       apply Nat.eqb_eq, map_size_empty_iff in Hs. by rewrite Hs. }
  all: destruct (truthy _) eqn:Ht; [done|]; intros [= <-].
  all: repeat split; done.
Qed.

Lemma well_typed_number f :
  field_type f = "number" → well_typed f = true →
  ∃ d, options_dict f = Some d
       ∧ bound_ok (d !! "min") = true ∧ bound_ok (d !! "max") = true.
Proof.
  unfold well_typed. intros ->. simpl.
  destruct (options_dict f) as [d|]; [|done].
  intros [??]%andb_true_iff. eauto.
Qed.

Lemma well_typed_choices f :
  field_type f = "select" ∨ field_type f = "multi_select" →
  well_typed f = true →
  ∃ d, options_dict f = Some d ∧ choices_ok (d !! "choices") = true.
Proof.
  unfold well_typed. intros [-> | ->]; simpl.
  all: destruct (options_dict f) as [d|]; [|done]; eauto.
Qed.

Lemma well_typed_list f :
  field_type f = "list" → well_typed f = true →
  ∃ d, options_dict f = Some d
       ∧ bound_ok (d !! "min_items") = true
       ∧ bound_ok (d !! "max_items") = true.
Proof.
  unfold well_typed. intros ->. simpl.
  destruct (options_dict f) as [d|]; [|done].
  intros [??]%andb_true_iff. eauto.
Qed.

(** A bound is unset, or it is a number. *)
Lemma bound_view o :
  bound_ok o = true →
  (set_value o = None ∧ default JNull o = JNull)
  ∨ (∃ v q, set_value o = Some v ∧ default JNull o = v
            ∧ is_none v = false ∧ as_number v = Some q).
Proof.
  destruct o as [v|]; [|by left].
  destruct v; simpl; intros H; try done; try (by left).
  all: right; eauto 10.
Qed.

(** The choices are unset or empty, or they are a list with a member. *)
Lemma choices_view o :
  choices_ok o = true →
  (truthy (default (JList []) o) = false
   ∧ match set_value o with Some (JList l) => l | _ => [] end = [])
  ∨ (∃ c l, default (JList []) o = JList (c :: l)
            ∧ set_value o = Some (JList (c :: l))).
Proof.
  destruct o as [v|]; [|by left].
  destruct v as [| | | | |l|]; simpl; intros H; try done; try (by left).
  destruct l as [|c l]; [by left|]. right. eauto.
Qed.

(** *** Bounds *)

Lemma range_check_spec x omin omax mk_min mk_max k :
  bound_ok omin = true → bound_ok omax = true →
  let r := range_check x (default JNull omin) (default JNull omax)
                       mk_min mk_max k in
  let lo := set_value omin ≫= as_number in
  let hi := set_value omax ≫= as_number in
  (∀ q, lo = Some q → (x < q)%Q →
     ∃ j, set_value omin = Some j ∧ r = inl (ValidationError (mk_min j)))
  ∧ (∀ q, hi = Some q → (q < x)%Q → (∀ q', lo = Some q' → (q' <= x)%Q) →
       ∃ j, set_value omax = Some j ∧ r = inl (ValidationError (mk_max j)))
  ∧ (((∀ q, lo = Some q → (q <= x)%Q) ∧ (∀ q, hi = Some q → (x <= q)%Q)
      ∧ r = k)
     ∨ (¬ ((∀ q, lo = Some q → (q <= x)%Q) ∧ (∀ q, hi = Some q → (x <= q)%Q))
        ∧ ∃ j, r = inl (ValidationError (mk_min j))
               ∨ r = inl (ValidationError (mk_max j)))).
Proof.
  intros Hmin Hmax. unfold range_check.
  destruct (bound_view _ Hmin) as [[-> ->]|(lo & ql & -> & -> & Hn1 & Hq1)];
    destruct (bound_view _ Hmax) as [[-> ->]|(hi & qh & -> & -> & Hn2 & Hq2)];
    simpl; rewrite ?Hn1, ?Hn2; unfold num_lt, num_gt; rewrite ?Hq1, ?Hq2; simpl.
  - split; [done|split; [done|]]. left. done.
  - destruct (Qlt_bool qh x) eqn:E.
    + apply Qlt_bool_true in E. split; [done|split].
      * intros ? [= <-] _ _. eauto.
      * right. split; [|eauto]. intros [_ H]. specialize (H _ eq_refl).
        by apply Qle_not_lt in H.
    + apply Qlt_bool_false in E. split; [done|split].
      * intros ? [= <-] H. by apply Qle_not_lt in E.
      * left. split; [done|]. split; [|done]. by intros ? [= <-].
  - destruct (Qlt_bool x ql) eqn:E.
    + apply Qlt_bool_true in E. split; [|split; [done|]].
      * intros ? [= <-] _. eauto.
      * right. split; [|eauto]. intros [H _]. specialize (H _ eq_refl).
        by apply Qle_not_lt in H.
    + apply Qlt_bool_false in E. split; [|split; [done|]].
      * intros ? [= <-] H. by apply Qle_not_lt in E.
      * left. split; [|done]. by intros ? [= <-].
  - destruct (Qlt_bool x ql) eqn:E1.
    + apply Qlt_bool_true in E1. split; [|split].
      * intros ? [= <-] _. eauto.
      * intros ? [= <-] _ H. specialize (H _ eq_refl).
        by apply Qle_not_lt in H.
      * right. split; [|eauto]. intros [H _]. specialize (H _ eq_refl).
        by apply Qle_not_lt in H.
    + apply Qlt_bool_false in E1. simpl. destruct (Qlt_bool qh x) eqn:E2.
      * apply Qlt_bool_true in E2. split; [|split].
        -- intros ? [= <-] H. by apply Qle_not_lt in E1.
        -- intros ? [= <-] _ _. eauto.
        -- right. split; [|eauto]. intros [_ H]. specialize (H _ eq_refl).
           by apply Qle_not_lt in H.
      * apply Qlt_bool_false in E2. split; [|split].
        -- intros ? [= <-] H. by apply Qle_not_lt in E1.
        -- intros ? [= <-] H. by apply Qle_not_lt in E2.
        -- left. split; [by intros ? [= <-]|]. split; [by intros ? [= <-]|done].
Qed.

(** *** Number fields *)

Lemma number_eval f v x d :
  field_type f = "number" → as_number v = Some x →
  (if truthy (options f) then options f else JObj ∅) = JObj d →
  _validate_value f v =
    range_check x (default JNull (d !! "min")) (default JNull (d !! "max"))
                MsgMin MsgMax ok.
Proof.
  intros Hft Hv Ho. rewrite validate_value_number by done.
  simpl. rewrite Ho, Hv. reflexivity.
Qed.

(** C6: a number field accepts a number exactly when it lies within the
    bounds that are set, both bounds included; a number below [min] gets
    the message of [min], a number above [max] (and not below [min]) the
    message of [max]; a value that is no number gets "Must be a number.". *)
Theorem number_range f v :
  field_type f = "number" → well_typed f = true →
  match as_number v with
  | None => _validate_value f v = invalid "Must be a number."
  | Some x =>
      (_validate_value f v = ok ↔
         (∀ lo, bound_of f "min" = Some lo → (lo <= x)%Q)
         ∧ (∀ hi, bound_of f "max" = Some hi → (x <= hi)%Q))
      ∧ (∀ lo, bound_of f "min" = Some lo → (x < lo)%Q →
           ∃ minv, option_of f "min" = Some minv
             ∧ _validate_value f v = inl (ValidationError (MsgMin minv)))
      ∧ (∀ hi, bound_of f "max" = Some hi → (hi < x)%Q →
           (∀ lo, bound_of f "min" = Some lo → (lo <= x)%Q) →
           ∃ maxv, option_of f "max" = Some maxv
             ∧ _validate_value f v = inl (ValidationError (MsgMax maxv)))
  end.
Proof.
  intros Hft Hwt. destruct (as_number v) as [x|] eqn:Hv.
  2: { rewrite validate_value_number by done. simpl. by rewrite Hv. }
  destruct (well_typed_number f Hft Hwt) as (d & Hd & Hmin & Hmax).
  destruct (options_dict_opts f d Hd) as (Ho & Hopt & _).
  rewrite (number_eval f v x d) by done.
  unfold bound_of. rewrite !Hopt.
  destruct (range_check_spec x _ _ MsgMin MsgMax ok Hmin Hmax)
    as (Hlo & Hhi & Hin).
  split; [|split; [exact Hlo|exact Hhi]].
  destruct Hin as [(H1 & H2 & ->)|(Hout & j & [-> | ->])]; split; done.
Qed.

Lemma number_range_witness : _validate_value rating (JInt 10) = ok.
Proof.
  pose proof (number_range rating (JInt 10) eq_refl eq_refl) as H.
  simpl in H. apply H.
  split; intros b Hb; vm_compute in Hb; injection Hb as <-;
    vm_compute; discriminate.
Defined.

Example number_range_boundary :
  _validate_value rating (JInt 0) = ok
  ∧ _validate_value rating (JInt 10) = ok
  ∧ _validate_value rating minus_0_01 = inl (ValidationError (MsgMin (JInt 0)))
  ∧ _validate_value rating plus_10_01 = inl (ValidationError (MsgMax (JInt 10)))
  ∧ _validate_value rating (JStr "7") = invalid "Must be a number.".
Proof. repeat split; vm_compute; reflexivity. Qed.

(** *** Booleans *)

Lemma validate_value_boolean f v :
  field_type f = "boolean" →
  _validate_value f v =
    if negb (is_bool v) then invalid "Must be true/false." else ok.
Proof. intros Hft. unfold _validate_value. rewrite Hft. reflexivity. Qed.

(** C10: a number field takes a boolean for the number 1 or 0: it never
    answers "Must be a number." to it and checks it against the bounds as
    it checks the integer; [True] is accepted between 0 and 10.  A boolean
    field accepts booleans only. *)
Theorem boolean_is_a_number :
  (∀ f b, field_type f = "number" →
     _validate_value f (JBool b)
     = _validate_value f (JInt (if b then 1 else 0))
     ∧ _validate_value f (JBool b) ≠ invalid "Must be a number.")
  ∧ _validate_value rating (JBool true) = ok
  ∧ (∀ f v, field_type f = "boolean" →
       (_validate_value f v = ok ↔ ∃ b, v = JBool b)
       ∧ (is_bool v = false →
          _validate_value f v = invalid "Must be true/false.")).
Proof.
  split; [|split].
  - intros f b Hft. rewrite !validate_value_number by done. split.
    + by destruct b.
    + simpl. unfold bind, get, num_lt, num_gt, invalid, ok.
      repeat case_match; congruence.
  - vm_compute. reflexivity.
  - intros f v Hft. rewrite validate_value_boolean by done.
    destruct v; simpl; (split; [split|]); try done; eauto.
    all: by intros [? ?].
Qed.

Lemma boolean_is_a_number_witness :
  _validate_value rating (JBool true) = _validate_value rating (JInt 1)
  ∧ _validate_value rating (JBool true) ≠ invalid "Must be a number.".
Proof.
  apply (proj1 boolean_is_a_number rating true). reflexivity.
Defined.

(** *** Select and multi-select fields *)

Lemma validate_value_select f v :
  field_type f = "select" →
  _validate_value f v =
    let opts := if truthy (options f) then options f else JObj ∅ in
    let* choices := get opts "choices" (JList []) in
    match v with
    | JStr s =>
        let* bad := (if truthy choices
                     then let* b := str_in s choices in inr (negb b)
                     else inr false) in
        if bad then invalid "Invalid choice." else ok
    | _ => invalid "Must be a string."
    end.
Proof. intros Hft. unfold _validate_value. rewrite Hft. reflexivity. Qed.

Lemma validate_value_multi_select f v :
  field_type f = "multi_select" →
  _validate_value f v =
    let opts := if truthy (options f) then options f else JObj ∅ in
    let* choices := get opts "choices" (JList []) in
    match as_str_list v with
    | None => invalid "Must be a list of strings."
    | Some xs =>
        let* bad := (if truthy choices then any_not_in xs choices
                     else inr false) in
        if bad then invalid "Contains invalid choice(s)." else ok
    end.
Proof. intros Hft. unfold _validate_value. rewrite Hft. reflexivity. Qed.

Lemma str_member s (l : list json) :
  existsb (str_eq s) l = true ↔ JStr s ∈ l.
Proof.
  rewrite existsb_exists. split.
  - intros (c & Hin & Heq). apply list_elem_of_In in Hin.
    destruct c; try done. simpl in Heq. apply String.eqb_eq in Heq. by subst.
  - intros Hin. exists (JStr s). split; [by apply list_elem_of_In|].
    simpl. apply String.eqb_refl.
Qed.

Lemma as_str_list_Some v xs :
  as_str_list v = Some xs ↔ v = JList (JStr <$> xs).
Proof.
  destruct v as [| | | | |l|]; simpl; try (split; done).
  rewrite mapM_Some. split.
  - intros H. f_equal. induction H as [|c x l xs Hc _ IH]; [done|].
    destruct c; try done. simpl in Hc. injection Hc as ->. simpl. by rewrite IH.
  - intros [= ->]. induction xs as [|x xs IH]; simpl; by constructor.
Qed.

Lemma any_not_in_list xs (l : list json) :
  ∃ b, any_not_in xs (JList l) = inr b
       ∧ (b = false ↔ ∀ x, x ∈ xs → JStr x ∈ l).
Proof.
  induction xs as [|x xs (b & Hb & IH)]; simpl.
  - exists false. split; [done|]. split; [|done]. intros _ x Hx.
    by apply elem_of_nil in Hx.
  - destruct (existsb (str_eq x) l) eqn:E; simpl.
    + exists b. split; [done|]. rewrite IH. apply str_member in E.
      split.
      * intros H y Hy. apply elem_of_cons in Hy as [->|Hy]; eauto.
      * intros H y Hy. apply H. by right.
    + exists true. split; [done|]. split; [done|]. intros H.
      assert (JStr x ∈ l) as Hx by (apply H; left).
      apply str_member in Hx. congruence.
Qed.

(** C8: a select field accepts a string that is among the choices, or any
    string when there are no choices; a multi-select field accepts a list
    of strings that are all among the choices, or any list of strings when
    there are no choices.  What is no string (no list of strings) gets the
    message of the type, a string outside the choices the message of the
    invalid choice. *)
Theorem choices_enforced f v :
  well_typed f = true →
  (field_type f = "select" →
     (_validate_value f v = ok ↔
        ∃ s, v = JStr s ∧ (choices_of f = [] ∨ JStr s ∈ choices_of f))
     ∧ (is_str v = false → _validate_value f v = invalid "Must be a string.")
     ∧ (∀ s, v = JStr s → choices_of f ≠ [] → JStr s ∉ choices_of f →
          _validate_value f v = invalid "Invalid choice."))
  ∧ (field_type f = "multi_select" →
       (_validate_value f v = ok ↔
          ∃ xs, v = JList (JStr <$> xs)
                ∧ (choices_of f = [] ∨ ∀ x, x ∈ xs → JStr x ∈ choices_of f))
       ∧ ((∀ xs, v ≠ JList (JStr <$> xs)) →
            _validate_value f v = invalid "Must be a list of strings.")
       ∧ (∀ xs x, v = JList (JStr <$> xs) → choices_of f ≠ [] →
            x ∈ xs → JStr x ∉ choices_of f →
            _validate_value f v = invalid "Contains invalid choice(s).")).
Proof.
  intros Hwt.
  assert (field_type f = "select" ∨ field_type f = "multi_select" →
          ∃ d, (if truthy (options f) then options f else JObj ∅) = JObj d
               ∧ choices_of f
                 = match set_value (d !! "choices") with
                   | Some (JList l) => l
                   | _ => []
                   end
               ∧ choices_ok (d !! "choices") = true) as Hd.
  { intros Hft. destruct (well_typed_choices f Hft Hwt) as (d & Hd & Hch).
    destruct (options_dict_opts f d Hd) as (Ho & Hopt & _).
    exists d. unfold choices_of. by rewrite Hopt. }
  split; intros Hft.
  - destruct Hd as (d & Ho & -> & Hch); [by left|].
    rewrite validate_value_select by done. simpl. rewrite Ho. simpl.
    destruct (choices_view _ Hch) as [[Hf ->]|(c & l & -> & ->)].
    + rewrite Hf. destruct v; simpl; (split; [split|]); try done; eauto.
      all: try (by intros (? & ? & ?)).
      all: by intros _ ? ? ?.
    + change (truthy (JList (c :: l))) with true. cbv iota.
      assert (c :: l ≠ []) as Hne by done.
      remember (c :: l) as cs eqn:Hcs. clear Hcs.
      destruct v as [| | | |s| |]; simpl.
      all: try (split; [split; [done|by intros (? & ? & ?)]|]; by split).
      destruct (existsb (str_eq s) cs) eqn:E; simpl.
      * apply str_member in E. split; [split|]; eauto.
        split; [done|]. by intros ? [= <-] _ ?.
      * assert (JStr s ∉ cs) as Hn.
        { intros Hin. apply str_member in Hin. congruence. }
        split; [split; [done|]|by split].
        intros (? & [= <-] & [?|?]); done.
  - destruct Hd as (d & Ho & -> & Hch); [by right|].
    rewrite validate_value_multi_select by done. simpl. rewrite Ho. simpl.
    destruct (as_str_list v) as [xs|] eqn:Hv.
    2: { split; [split; [done|]|split; [done|]].
         - intros (xs & Hxs & _). apply as_str_list_Some in Hxs. congruence.
         - intros xs x Hxs. apply as_str_list_Some in Hxs. congruence. }
    apply as_str_list_Some in Hv as ->.
    assert (∀ ys : list string, JList (JStr <$> xs) = JList (JStr <$> ys) → ys = xs)
      as Hinj.
    { intros ys [= H]. symmetry. revert H. apply list_fmap_eq_inj.
      by intros ?? [=]. }
    destruct (choices_view _ Hch) as [[Hf ->]|(c & l & -> & ->)].
    + rewrite Hf. simpl. split; [split; eauto|].
      split; [intros H; by destruct (H xs)|done].
    + change (truthy (JList (c :: l))) with true. cbv iota.
      assert (c :: l ≠ []) as Hne by done.
      remember (c :: l) as cs eqn:Hcs. clear Hcs.
      destruct (any_not_in_list xs cs) as (b & -> & Hb). simpl.
      destruct b.
      * split; [split; [done|]|split; [intros H; by destruct (H xs)|done]].
        intros (ys & Hys & [?|Hall]); [done|]. apply Hinj in Hys as ->.
        by apply Hb in Hall.
      * split; [split; eauto|]. { intros _. eexists. split; [done|].
          right. by apply Hb. }
        split; [intros H; by destruct (H xs)|].
        intros ys x Hys _ Hx Hn. apply Hinj in Hys as ->.
        destruct Hn. by apply Hb.
Qed.

(** *** List fields *)

Lemma validate_value_list f v :
  field_type f = "list" →
  _validate_value f v =
    let opts := if truthy (options f) then options f else JObj ∅ in
    match v with
    | JList items =>
        let* item_type := get opts "item_type" (JStr "text") in
        let* min_items := get opts "min_items" JNull in
        let* max_items := get opts "max_items" JNull in
        range_check (inject_Z (len items)) min_items max_items
                    MsgMinItems MsgMaxItems (check_items item_type items)
    | _ => invalid "Must be a list."
    end.
Proof. intros Hft. unfold _validate_value. rewrite Hft. reflexivity. Qed.

Lemma check_items_spec t items :
  t ∈ ["text"; "number"; "boolean"] →
  check_items (JStr t) items
  = if forallb (item_ok t) items then ok else invalid (item_message t).
Proof.
  intros Ht. repeat (apply elem_of_cons in Ht as [->|Ht]);
    [| | |by apply elem_of_nil in Ht].
  all: induction items as [|i items IH]; [done|].
  all: cbn -[String.eqb]; unfold item_ok in *; cbn in *.
  all: by destruct i; cbn; rewrite ?IH.
Qed.

(** C7: a list field of item type text, number or boolean accepts a list
    whose length is within the bounds that are set, both included, and
    whose items all have the item type.  What is no list, a list too
    short, a list too long, and a list with an item of another type each
    get their message, in this order of precedence. *)
Theorem list_constraints f v t :
  field_type f = "list" → well_typed f = true →
  item_type_of f = JStr t → t ∈ ["text"; "number"; "boolean"] →
  (_validate_value f v = ok ↔
     ∃ items, v = JList items
       ∧ (∀ n, bound_of f "min_items" = Some n → (n <= inject_Z (len items))%Q)
       ∧ (∀ n, bound_of f "max_items" = Some n → (inject_Z (len items) <= n)%Q)
       ∧ Forall (λ i, item_ok t i = true) items)
  ∧ (is_list v = false → _validate_value f v = invalid "Must be a list.")
  ∧ (∀ items, v = JList items →
       (∀ n, bound_of f "min_items" = Some n → (inject_Z (len items) < n)%Q →
          ∃ j, option_of f "min_items" = Some j
               ∧ _validate_value f v = inl (ValidationError (MsgMinItems j)))
       ∧ (∀ n, bound_of f "max_items" = Some n → (n < inject_Z (len items))%Q →
            (∀ n', bound_of f "min_items" = Some n' →
                   (n' <= inject_Z (len items))%Q) →
            ∃ j, option_of f "max_items" = Some j
                 ∧ _validate_value f v = inl (ValidationError (MsgMaxItems j)))
       ∧ ((∀ n, bound_of f "min_items" = Some n → (n <= inject_Z (len items))%Q) →
          (∀ n, bound_of f "max_items" = Some n → (inject_Z (len items) <= n)%Q) →
          ¬ Forall (λ i, item_ok t i = true) items →
          _validate_value f v = invalid (item_message t))).
Proof.
  intros Hft Hwt Hit Ht.
  destruct (well_typed_list f Hft Hwt) as (d & Hd & Hmin & Hmax).
  destruct (options_dict_opts f d Hd) as (Ho & Hopt & Hity).
  assert (default (JStr "text") (d !! "item_type") = JStr t) as Hty
    by congruence.
  rewrite validate_value_list by done. unfold bound_of. rewrite !Hopt.
  simpl. rewrite Ho. simpl.
  destruct v as [| | | | |items|]; simpl.
  1-5, 7: (split; [split; [done|by intros (? & ? & _)]|]; by split).
  rewrite Hty, check_items_spec by done.
  destruct (range_check_spec (inject_Z (len items)) _ _ MsgMinItems MsgMaxItems
              (if forallb (item_ok t) items then ok else invalid (item_message t))
              Hmin Hmax) as (Hlo & Hhi & Hin).
  assert (forallb (item_ok t) items = true ↔ Forall (λ i, item_ok t i = true) items)
    as Hall.
  { rewrite forallb_forall, Forall_forall. by setoid_rewrite list_elem_of_In. }
  split; [|split; [done|]].
  - destruct Hin as [(H1 & H2 & ->)|(Hout & j & [-> | ->])].
    + destruct (forallb (item_ok t) items) eqn:E.
      * split; [|done]. intros _. exists items. by rewrite <- Hall.
      * split; [done|]. intros (? & [= <-] & _ & _ & H).
        apply Hall in H. congruence.
    + split; [done|]. intros (? & [= <-] & ? & ? & _). by destruct Hout.
    + split; [done|]. intros (? & [= <-] & ? & ? & _). by destruct Hout.
  - intros ? [= <-]. split; [exact Hlo|split; [exact Hhi|]].
    intros H1 H2 Hbad.
    destruct Hin as [(_ & _ & ->)|(Hout & _)]; [|by destruct Hout].
    rewrite <- Hall in Hbad. apply not_true_is_false in Hbad.
    by rewrite Hbad.
Qed.

Lemma list_constraints_witness :
  _validate_value scores (JList [JInt 1; JInt 2]) = ok.
Proof.
  apply (list_constraints scores (JList [JInt 1; JInt 2]) "number");
    [reflexivity | reflexivity | reflexivity | | ].
  - apply elem_of_cons. right. apply elem_of_cons. by left.
  - exists [JInt 1; JInt 2]. split; [reflexivity|].
    split; [|split].
    + intros n Hn. vm_compute in Hn. injection Hn as <-. vm_compute. discriminate.
    + intros n Hn. vm_compute in Hn. injection Hn as <-. vm_compute. discriminate.
    + repeat constructor.
Defined.

Example list_constraints_examples :
  _validate_value scores (JList [JInt 1; JInt 2]) = ok
  ∧ _validate_value scores (JList [])
    = inl (ValidationError (MsgMinItems (JInt 1)))
  ∧ _validate_value scores (JList [JStr "a"])
    = invalid "All items must be numbers."
  ∧ _validate_value scores (JList [JInt 1; JInt 2; JInt 3; JInt 4])
    = inl (ValidationError (MsgMaxItems (JInt 3)))
  ∧ _validate_value scores (JStr "1, 2") = invalid "Must be a list.".
Proof. repeat split; vm_compute; reflexivity. Qed.

Lemma choices_enforced_witness :
  _validate_value status (JStr "watching") = ok.
Proof.
  apply (proj1 (choices_enforced status (JStr "watching") eq_refl) eq_refl).
  exists "watching". split; [reflexivity|]. right.
  apply elem_of_cons. right. apply elem_of_cons. by left.
Defined.

Example choices_enforced_examples :
  _validate_value status (JStr "watching") = ok
  ∧ _validate_value status (JStr "paused") = invalid "Invalid choice."
  ∧ _validate_value status (JInt 1) = invalid "Must be a string."
  ∧ _validate_value tags (JList [JStr "drama"; JStr "comedy"]) = ok
  ∧ _validate_value tags (JList [JStr "drama"; JStr "horror"])
    = invalid "Contains invalid choice(s)."
  ∧ _validate_value tags (JList [JStr "drama"; JInt 3])
    = invalid "Must be a list of strings."
  ∧ _validate_value tags (JStr "drama") = invalid "Must be a list of strings.".
Proof. repeat split; vm_compute; reflexivity. Qed.

(** *** Presence and required fields *)

Lemma present_spec (d : gmap string json) k :
  present d k = true ↔
  ∃ v, d !! k = Some v ∧ v ≠ JNull ∧ v ≠ JStr "" ∧ v ≠ JList [].
Proof.
  unfold present, data_get.
  rewrite andb_true_iff, bool_decide_eq_true, elem_of_dom, negb_true_iff.
  split.
  - intros [[v Hv] He]. exists v. rewrite Hv in He. simpl in He.
    split; [done|]. repeat split; intros ->; done.
  - intros (v & Hv & H1 & H2 & H3). rewrite Hv. split; [by eexists|]. simpl.
    destruct v as [| | | |s|l|]; try done.
    + by destruct s.
    + by destruct l.
Qed.

Lemma required_kept d fs : ∀ errors errors' k,
  check_fields d errors fs = inr errors' →
  present d k = false →
  errors !! k = Some (Msg "This field is required.") →
  errors' !! k = Some (Msg "This field is required.").
Proof.
  induction fs as [|g fs IH]; intros errors errors' k E Hp Hk; simpl in E.
  - congruence.
  - destruct (check_field d errors g) as [e|errors1] eqn:E1; simpl in E; [done|].
    apply (IH errors1 errors' k E Hp).
    pose proof (check_field_turn d errors g) as T. rewrite E1 in T.
    inversion T as [Hr Hg| | |m Hg Hv|]; subst; try done.
    + rewrite lookup_insert. by case_decide.
    + rewrite lookup_insert_ne; [done|]. intros Heq. congruence.
Qed.

Lemma required_recorded d fs : ∀ errors errors' f,
  f ∈ fs → required f = true → present d (label f) = false →
  check_fields d errors fs = inr errors' →
  errors' !! label f = Some (Msg "This field is required.").
Proof.
  induction fs as [|g fs IH]; intros errors errors' f Hf Hr Hp E; simpl in E.
  - by apply elem_of_nil in Hf.
  - destruct (check_field d errors g) as [e|errors1] eqn:E1; simpl in E; [done|].
    apply elem_of_cons in Hf as [<-|Hf]; [|by eapply IH].
    apply (required_kept _ _ _ _ _ E Hp).
    unfold check_field in E1. rewrite Hr, Hp in E1. simpl in E1.
    injection E1 as <-. apply lookup_insert_eq.
Qed.

(** C4: a field is present when the record has a value under the field's
    identifier that is none of [null], the empty string and the empty
    list; 0 and [false] are present.  A required field that is not present
    gets "This field is required." under its identifier, whatever its type
    and options are (no other check of the field runs), and the entry is
    there when the loop ends. *)
Theorem presence_and_required (R : gmap string json) (f : FieldDefinition) :
  (present R (label f) = true ↔
     ∃ v, R !! label f = Some v ∧ v ≠ JNull ∧ v ≠ JStr "" ∧ v ≠ JList [])
  ∧ (∀ v, R !! label f = Some v →
       v = JInt 0 ∨ v = JFloat 0 ∨ v = JBool false →
       present R (label f) = true)
  ∧ (R !! label f = None ∨ R !! label f = Some JNull
     ∨ R !! label f = Some (JStr "") ∨ R !! label f = Some (JList []) →
     present R (label f) = false)
  ∧ (required f = true → present R (label f) = false →
       (∀ errors, check_field R errors f
          = inr (<[label f := Msg "This field is required."]> errors))
       ∧ (∀ S errors, f ∈ S → check_fields R ∅ S = inr errors →
            errors !! label f = Some (Msg "This field is required."))).
Proof.
  split; [apply present_spec|]. split; [|split].
  - intros v Hv Hz. apply present_spec. exists v. split; [done|].
    destruct Hz as [->|[->| ->]]; done.
  - intros H. apply not_true_is_false. rewrite present_spec.
    intros (v & Hv & H1 & H2 & H3).
    destruct H as [H|[H|[H|H]]]; rewrite H in Hv; congruence.
  - intros Hr Hp. split.
    + intros errors. unfold check_field. by rewrite Hr, Hp.
    + intros S errors Hf E. by eapply required_recorded.
Qed.

Lemma presence_and_required_witness :
  check_field {[ "rating" := JNull ]} ∅ rating
  = inr {[ "rating" := Msg "This field is required." ]}.
Proof.
  apply (presence_and_required {[ "rating" := JNull ]} rating); reflexivity.
Defined.

Example presence_sentinels :
  check_fields {[ "rating" := JInt 0 ]} ∅ [rating] = inr ∅
  ∧ Accept (validate_result [rating] (JObj {[ "rating" := JInt 0 ]}))
  ∧ check_fields {[ "rating" := JNull ]} ∅ [rating]
    = inr {[ "rating" := Msg "This field is required." ]}
  ∧ check_fields {[ "tags" := JList [] ]} ∅ [tags]
    = inr {[ "tags" := Msg "This field is required." ]}.
Proof.
  repeat split; try (vm_compute; reflexivity).
  eexists. vm_compute. reflexivity.
Qed.

(** *** With well-typed options no check ends in a fault *)

Lemma caught_ok : caught ok.
Proof. left. by eexists. Qed.

Lemma caught_invalid s : caught (invalid s).
Proof. right. by eexists. Qed.

Lemma caught_if (b : bool) r1 r2 : caught r1 → caught r2 → caught (if b then r1 else r2).
Proof. by destruct b. Qed.

Lemma check_items_caught item_type items : caught (check_items item_type items).
Proof.
  induction items as [|i items IH]; simpl; [apply caught_ok|].
  repeat apply caught_if; auto using caught_invalid.
Qed.

Lemma range_check_caught x omin omax mk_min mk_max k :
  bound_ok omin = true → bound_ok omax = true → caught k →
  caught (range_check x (default JNull omin) (default JNull omax) mk_min mk_max k).
Proof.
  intros Hmin Hmax Hk.
  destruct (range_check_spec x _ _ mk_min mk_max k Hmin Hmax)
    as (_ & _ & [(_ & _ & ->)|(_ & j & [-> | ->])]); [done|..];
    right; by eexists.
Qed.

Lemma validate_value_caught f v :
  well_typed f = true → caught (_validate_value f v).
Proof.
  intros Hwt.
  destruct (existsb (String.eqb (field_type f)) ["text"; "long_text"; "url"]) eqn:E1.
  { unfold _validate_value. cbv zeta. rewrite E1.
    apply caught_if; auto using caught_ok, caught_invalid. }
  destruct (field_type f =? "boolean")%string eqn:E2.
  { apply String.eqb_eq in E2. rewrite validate_value_boolean by done.
    apply caught_if; auto using caught_ok, caught_invalid. }
  destruct (field_type f =? "number")%string eqn:E3.
  { apply String.eqb_eq in E3. rewrite validate_value_number by done.
    destruct (as_number v) as [x|] eqn:Hv; [|apply caught_invalid].
    destruct (well_typed_number f E3 Hwt) as (d & Hd & Hmin & Hmax).
    destruct (options_dict_opts f d Hd) as (Ho & _).
    cbv zeta. rewrite Ho. simpl.
    apply (range_check_caught x _ _ MsgMin MsgMax ok Hmin Hmax caught_ok). }
  destruct (existsb (String.eqb (field_type f)) ["date"; "datetime"]) eqn:E4.
  { unfold _validate_value. cbv zeta. rewrite E1, E2, E3, E4.
    apply caught_if; auto using caught_ok, caught_invalid. }
  destruct (field_type f =? "select")%string eqn:E5.
  { apply String.eqb_eq in E5. rewrite validate_value_select by done.
    destruct (well_typed_choices f (or_introl E5) Hwt) as (d & Hd & Hch).
    destruct (options_dict_opts f d Hd) as (Ho & _).
    cbv zeta. rewrite Ho. simpl.
    destruct v; try apply caught_invalid.
    destruct (choices_view _ Hch) as [[-> _]|(c & l & -> & _)]; simpl.
    - apply caught_ok.
    - apply caught_if; auto using caught_ok, caught_invalid. }
  destruct (field_type f =? "multi_select")%string eqn:E6.
  { apply String.eqb_eq in E6. rewrite validate_value_multi_select by done.
    destruct (well_typed_choices f (or_intror E6) Hwt) as (d & Hd & Hch).
    destruct (options_dict_opts f d Hd) as (Ho & _).
    cbv zeta. rewrite Ho. simpl.
    destruct (as_str_list v) as [xs|]; [|apply caught_invalid].
    destruct (choices_view _ Hch) as [[-> _]|(c & l & -> & _)]; simpl.
    - apply caught_ok.
    - change (match xs with [] => inr false | x :: xs' => _ end)
        with (any_not_in xs (JList (c :: l))).
      destruct (any_not_in_list xs (c :: l)) as (b & -> & _). simpl.
      apply caught_if; auto using caught_ok, caught_invalid. }
  destruct (field_type f =? "list")%string eqn:E7.
  { apply String.eqb_eq in E7. rewrite validate_value_list by done.
    destruct (well_typed_list f E7 Hwt) as (d & Hd & Hmin & Hmax).
    destruct (options_dict_opts f d Hd) as (Ho & _).
    cbv zeta. rewrite Ho. simpl.
    destruct v; try apply caught_invalid.
    apply range_check_caught; auto using check_items_caught. }
  unfold _validate_value. cbv zeta. rewrite E1, E2, E3, E4, E5, E6, E7.
  apply caught_invalid.
Qed.

Lemma check_fields_completes d fs : ∀ errors,
  Forall (λ f, well_typed f = true) fs →
  ∃ errors', check_fields d errors fs = inr errors'.
Proof.
  induction fs as [|f fs IH]; intros errors Hwt; simpl; [by eexists|].
  apply Forall_cons in Hwt as [Hf Hfs].
  assert (∃ errors1, check_field d errors f = inr errors1) as [errors1 ->].
  { unfold check_field.
    destruct (validate_value_caught f (data_get d (label f)) Hf)
      as [[u ->]|[m ->]]; repeat case_match; by eexists. }
  simpl. by apply IH.
Qed.

(** *** [clean] and [validate] as a whole *)

Lemma clean_known S (d : gmap string json) out :
  unknown_keys S d = ∅ →
  clean (world_of S (JObj d) out)
  = match check_fields d ∅ S with
    | inl e => (inl e, world_of S (JObj d) out)
    | inr errors =>
        if negb (size errors =? 0)%nat
        then print errors (world_of S (JObj d) out)
        else (inr (), world_of S (JObj d) out)
    end.
Proof.
  intros Hu. unfold clean, world_of. simpl. rewrite Hu. reflexivity.
Qed.

Lemma validate_known S (d : gmap string json) errors :
  unknown_keys S d = ∅ → check_fields d ∅ S = inr errors →
  validate_result S (JObj d) = inr (attrs_of S (JObj d)).
Proof.
  intros Hu Hc. unfold validate_result, validate.
  change {| self := Entry_of (attrs_of S (JObj d)); stdout := [] |}
    with (world_of S (JObj d) []).
  rewrite clean_known, Hc by done.
  by destruct (negb (size errors =? 0)%nat).
Qed.

Lemma field_fails_functional d f m m' :
  field_fails d f m → field_fails d f m' → m = m'.
Proof.
  intros [(_ & Hp & ->)|(Hp & Hv)] [(_ & Hp' & ->)|(Hp' & Hv')];
    congruence.
Qed.

Lemma label_inj (S : list FieldDefinition) f g :
  NoDup (label <$> S) → f ∈ S → g ∈ S → label f = label g → f = g.
Proof.
  induction S as [|h S IH]; intros Hnd Hf Hg Hl.
  - by apply elem_of_nil in Hf.
  - rewrite fmap_cons in Hnd. apply NoDup_cons in Hnd as [Hh Hnd].
    apply elem_of_cons in Hf as [->|Hf]; apply elem_of_cons in Hg as [->|Hg].
    + done.
    + destruct Hh. rewrite Hl. by apply list_elem_of_fmap_2.
    + destruct Hh. rewrite <- Hl. by apply list_elem_of_fmap_2.
    + by apply IH.
Qed.

(** C1, as amended: every failure of a per-field check is caught in the
    loop and recorded in the error dict under the label of its field: the
    loop never ends with a [ValidationError], with well-typed options it
    ends with the error dict, which has an entry for every failing field
    (with the message of the failure when no two fields share a label)
    and no entry that is not the failure of a field.  When the record has
    unknown keys, [validate] rejects with the entry of the unknown keys
    alone. *)
Theorem field_failures_recorded (S : list FieldDefinition) (R : gmap string json) :
  (unknown_keys S R ≠ ∅ →
     Reject (validate_result S (JObj R))
            {[ "data" := [MsgUnknownKeys (sorted (unknown_keys S R))] ]})
  ∧ (∀ m, check_fields R ∅ S ≠ inl (ValidationError m))
  ∧ (∀ x, check_fields R ∅ S ≠ inl (ValidationErrorDict x))
  ∧ (Forall (λ f, well_typed f = true) S →
       ∃ errors, check_fields R ∅ S = inr errors)
  ∧ (∀ errors, check_fields R ∅ S = inr errors →
       (∀ f m, f ∈ S → field_fails R f m → is_Some (errors !! label f))
       ∧ (NoDup (label <$> S) →
          ∀ f m, f ∈ S → field_fails R f m → errors !! label f = Some m)
       ∧ (∀ k m, errors !! k = Some m →
            ∃ f, f ∈ S ∧ label f = k ∧ field_fails R f m)).
Proof.
  split; [|split; [|split; [|split]]].
  - intros Hu. unfold Reject, validate_result. by rewrite validate_unknown.
  - apply check_fields_no_validation_error.
  - apply check_fields_no_validation_error.
  - apply check_fields_completes.
  - intros errors E.
    assert (∀ k m, errors !! k = Some m →
              ∃ f, f ∈ S ∧ label f = k ∧ field_fails R f m) as Hsound.
    { intros k m Hk.
      destruct (check_fields_sound _ _ _ _ E k m Hk) as [H|H]; [|done].
      by rewrite lookup_empty in H. }
    split; [apply (check_fields_complete _ _ _ _ E)|]. split; [|done].
    intros Hnd f m Hf Hm.
    destruct (proj2 (check_fields_complete _ _ _ _ E) f m Hf Hm) as [m' Hm'].
    destruct (Hsound _ _ Hm') as (g & Hg & Hl & Hgm).
    rewrite (label_inj S g f Hnd Hg Hf Hl) in Hgm.
    by rewrite Hm', (field_fails_functional _ _ _ _ Hgm Hm).
Qed.

Lemma field_failures_recorded_witness :
  Reject (validate_result [required_title] (JObj bogus_only))
         {[ "data" := [MsgUnknownKeys (sorted (unknown_keys [required_title] bogus_only))] ]}
  ∧ ∃ errors, check_fields bogus_only ∅ [required_title] = inr errors
              ∧ is_Some (errors !! "title").
Proof.
  destruct (field_failures_recorded [required_title] bogus_only)
    as (Hu & _ & _ & Hc & Hr).
  split.
  - apply Hu. vm_compute. discriminate.
  - destruct Hc as [errors E]; [repeat constructor|].
    exists errors. split; [exact E|].
    apply (proj1 (Hr errors E) required_title (Msg "This field is required.")).
    + by left.
    + left. repeat split; reflexivity.
Defined.

Lemma merged_errors_counterexample :
  unknown_keys [required_title] bogus_only ≠ ∅
  ∧ field_fails bogus_only required_title (Msg "This field is required.")
  ∧ ¬ ∃ errors, Reject (validate_result [required_title] (JObj bogus_only)) errors
                ∧ is_Some (errors !! "data") ∧ is_Some (errors !! "title").
Proof.
  split; [vm_compute; discriminate|]. split; [left; repeat split; reflexivity|].
  intros (errors & Hr & _ & Ht). unfold Reject, validate_result in Hr.
  rewrite validate_unknown in Hr by (vm_compute; discriminate).
  injection Hr as <-. rewrite lookup_singleton_ne in Ht by done.
  by destruct Ht.
Qed.

(** What [validate] does with a record that has no unknown key and lacks a
    required field: the error dict is printed and the attributes are
    returned. *)
Example field_errors_printed :
  validate (attrs_of [rating] (JObj {[ "rating" := JNull ]})) []
  = (inr (attrs_of [rating] (JObj {[ "rating" := JNull ]})),
     [ {[ "rating" := Msg "This field is required." ]} ]).
Proof. vm_compute. reflexivity. Qed.

(** C5, as amended: on a schema with well-typed options and a record that
    is a dict, [validate] ends in exactly one of two ways: it accepts, or
    it rejects with a dict of errors; the keys of that dict are among
    ["data"] and the keys of the fields (they are ["data"] alone). *)
Theorem validate_total (S : list FieldDefinition) (R : gmap string json) :
  Forall (λ f, well_typed f = true) S →
  (Accept (validate_result S (JObj R))
   ∧ ¬ ∃ errors, Reject (validate_result S (JObj R)) errors)
  ∨ (¬ Accept (validate_result S (JObj R))
     ∧ ∃ errors, Reject (validate_result S (JObj R)) errors
         ∧ dom errors = {[ "data" ]}
         ∧ dom errors ⊆ {[ "data" ]} ∪ list_to_set (key <$> S)).
Proof.
  intros Hwt. unfold Accept, Reject.
  destruct (decide (unknown_keys S R = ∅)) as [Hu|Hu].
  - left. destruct (check_fields_completes R S ∅ Hwt) as [errors E].
    rewrite (validate_known S R errors) by done.
    split; [by eexists|]. by intros (? & ?).
  - right. unfold validate_result. rewrite validate_unknown by done. simpl.
    split; [by intros (? & ?)|]. eexists. split; [done|].
    rewrite dom_singleton_L. split; [done|]. set_solver.
Qed.

Lemma validate_total_witness :
  (Accept (validate_result movies (JObj bogus_record))
   ∧ ¬ ∃ errors, Reject (validate_result movies (JObj bogus_record)) errors)
  ∨ (¬ Accept (validate_result movies (JObj bogus_record))
     ∧ ∃ errors, Reject (validate_result movies (JObj bogus_record)) errors
         ∧ dom errors = {[ "data" ]}
         ∧ dom errors ⊆ {[ "data" ]} ∪ list_to_set (key <$> movies)).
Proof.
  apply (validate_total movies bogus_record).
  repeat constructor.
Defined.

Lemma validate_total_counterexample :
  validate_result [rating_low] (JObj {[ "rating" := JInt 5 ]})
  = inl (Uncaught TypeError)
  ∧ ¬ Accept (validate_result [rating_low] (JObj {[ "rating" := JInt 5 ]}))
  ∧ ¬ ∃ errors,
        Reject (validate_result [rating_low] (JObj {[ "rating" := JInt 5 ]}))
               errors.
Proof.
  assert (validate_result [rating_low] (JObj {[ "rating" := JInt 5 ]})
          = inl (Uncaught TypeError)) as E by (vm_compute; reflexivity).
  rewrite E. split; [done|]. unfold Accept, Reject.
  split; [by intros (? & ?)|by intros (? & ?)].
Qed.

(** *** Labels, not keys *)

Lemma present_lookup (d d' : gmap string json) k :
  d' !! k = d !! k → present d' k = present d k.
Proof.
  intros H. unfold present, data_get. rewrite H. f_equal.
  apply bool_decide_ext. by rewrite !elem_of_dom, H.
Qed.

Lemma check_field_lookup (d d' : gmap string json) errors f :
  d' !! label f = d !! label f → check_field d' errors f = check_field d errors f.
Proof.
  intros H. unfold check_field, data_get.
  by rewrite (present_lookup d d' (label f) H), H.
Qed.

Lemma check_fields_with_key (rename : FieldDefinition → string) d fs : ∀ errors,
  check_fields d errors ((λ f, with_key (rename f) f) <$> fs)
  = check_fields d errors fs.
Proof.
  induction fs as [|f fs IH]; intros errors; [done|].
  simpl. change (check_field d errors (with_key (rename f) f))
    with (check_field d errors f).
  destruct (check_field d errors f); simpl; [done|apply IH].
Qed.

Lemma unknown_keys_with_key (rename : FieldDefinition → string) fs d :
  unknown_keys ((λ f, with_key (rename f) f) <$> fs) d = unknown_keys fs d.
Proof.
  unfold unknown_keys. rewrite !dom_schema_of. do 2 f_equal.
  rewrite <- list_fmap_compose. by apply list_fmap_ext.
Qed.

(** C2, as amended: the identifiers the validator knows are the labels of
    the fields: a key of the record is unknown when no field has it as
    label, the keys of the fields play no part in [clean], a field is
    looked up in the record under its label, and the slots of the error
    dict are labels.  So an entry of the record under the key of a field
    is an unknown key, and rejected as such, when no field of the schema
    has that key as its label. *)
Theorem schema_keyed_by_label (S : list FieldDefinition) (R : gmap string json) :
  (∀ k, k ∈ unknown_keys S R ↔ k ∈ dom R ∧ ∀ f, f ∈ S → label f ≠ k)
  ∧ (∀ (rename : FieldDefinition → string) out,
       (clean (world_of ((λ f, with_key (rename f) f) <$> S) (JObj R) out)).1
       = (clean (world_of S (JObj R) out)).1
       ∧ stdout (clean (world_of ((λ f, with_key (rename f) f) <$> S)
                                 (JObj R) out)).2
         = stdout (clean (world_of S (JObj R) out)).2)
  ∧ (∀ R' errors f,
       R' !! label f = R !! label f →
       check_field R' errors f = check_field R errors f)
  ∧ (∀ errors k, check_fields R ∅ S = inr errors → k ∈ dom errors →
       ∃ f, f ∈ S ∧ label f = k)
  ∧ (∀ f, f ∈ S → (∀ g, g ∈ S → label g ≠ key f) → key f ∈ dom R →
       key f ∈ unknown_keys S R
       ∧ ∃ ks, Reject (validate_result S (JObj R))
                      {[ "data" := [MsgUnknownKeys ks] ]}
               ∧ key f ∈ ks).
Proof.
  split; [apply elem_of_unknown_keys|]. split; [|split; [|split]].
  - intros rename out. unfold clean, world_of. simpl.
    rewrite unknown_keys_with_key, check_fields_with_key.
    destruct (negb (size (unknown_keys S R) =? 0)%nat); [done|].
    destruct (check_fields R ∅ S) as [e|errors]; [done|].
    by destruct (negb (size errors =? 0)%nat).
  - intros R' errors f. apply check_field_lookup.
  - intros errors k E [m Hk]%elem_of_dom.
    destruct (check_fields_sound _ _ _ _ E k m Hk) as [H|(f & ? & ? & _)].
    + by rewrite lookup_empty in H.
    + eauto.
  - intros f Hf Hl Hk.
    assert (key f ∈ unknown_keys S R) as Hu by (by apply elem_of_unknown_keys).
    split; [done|]. exists (sorted (unknown_keys S R)). split.
    + unfold Reject, validate_result. rewrite validate_unknown; [done|].
      intros He. rewrite He in Hu. by apply not_elem_of_empty in Hu.
    + by apply sorted_spec.
Qed.

Lemma schema_keyed_by_label_witness :
  key rating_labelled ∈ unknown_keys [rating_labelled] {[ "rating" := JInt 5 ]}
  ∧ ∃ ks, Reject (validate_result [rating_labelled]
                                  (JObj {[ "rating" := JInt 5 ]}))
                 {[ "data" := [MsgUnknownKeys ks] ]}
          ∧ key rating_labelled ∈ ks.
Proof.
  apply (schema_keyed_by_label [rating_labelled] {[ "rating" := JInt 5 ]}).
  - by left.
  - intros g Hg. apply elem_of_cons in Hg as [->|Hg].
    + vm_compute. discriminate.
    + by apply elem_of_nil in Hg.
  - apply elem_of_dom. exists (JInt 5). reflexivity.
Defined.

Lemma key_as_label_counterexample :
  title_as_name ∈ [name_as_title; title_as_name]
  ∧ label title_as_name ≠ key title_as_name
  ∧ key title_as_name ∈ dom ({[ "title" := JStr "x" ]} : gmap string json)
  ∧ ¬ (key title_as_name
       ∈ unknown_keys [name_as_title; title_as_name] {[ "title" := JStr "x" ]})
  ∧ Accept (validate_result [name_as_title; title_as_name]
                            (JObj {[ "title" := JStr "x" ]})).
Proof.
  split; [right; left|]. split; [vm_compute; discriminate|].
  split; [apply elem_of_dom; by eexists|]. split.
  - rewrite elem_of_unknown_keys. intros [_ H].
    apply (H name_as_title); [left|reflexivity].
  - eexists. vm_compute. reflexivity.
Qed.

(** *** Purity *)

Lemma clean_self w : self (clean w).2 = self w.
Proof.
  unfold clean. repeat case_match; try done.
Qed.

Lemma clean_result_self w w' : self w' = self w → (clean w').1 = (clean w).1.
Proof.
  intros H. unfold clean. rewrite H. repeat case_match; done.
Qed.

(** C9: [clean] leaves the entry, its schema and its data as they were, a
    second run after the first gives the result of the first, and the
    result of [validate] on given attributes is the same whatever has been
    printed before. *)
Theorem validation_is_pure (w : world) :
  self (clean w).2 = self w
  ∧ (clean (clean w).2).1 = (clean w).1
  ∧ (∀ attrs out out', (validate attrs out).1 = (validate attrs out').1).
Proof.
  split; [apply clean_self|]. split.
  - apply clean_result_self, clean_self.
  - intros attrs out out'. unfold validate.
    pose proof (clean_result_self {| self := Entry_of attrs; stdout := out |}
                  {| self := Entry_of attrs; stdout := out' |} eq_refl) as H.
    destruct (clean {| self := Entry_of attrs; stdout := out |}) as [r w1].
    destruct (clean {| self := Entry_of attrs; stdout := out' |}) as [r' w2].
    simpl in H. subst r'. destruct r as [[]|]; done.
Qed.

(** ** Further properties of the validator *)

(** *** The types without options *)

Lemma eqb_of_not_elem (s : string) (l : list string) t :
  s ∉ l → t ∈ l → (s =? t)%string = false.
Proof. intros Hs Ht. apply String.eqb_neq. by intros ->. Qed.

(** X1: a text, long text, url, date or datetime field accepts exactly the
    strings, whatever its options are and whatever the string is (a date
    is not parsed); any other value gets the message of the type. *)
Theorem string_types_accept_strings f v :
  field_type f ∈ ["text"; "long_text"; "url"; "date"; "datetime"] →
  (_validate_value f v = ok ↔ ∃ s, v = JStr s)
  ∧ (is_str v = false →
     _validate_value f v
     = invalid (if bool_decide (field_type f ∈ ["date"; "datetime"])
                then "Must be an ISO date/datetime string."
                else "Must be a string.")).
Proof.
  intros Hft. unfold _validate_value.
  repeat (apply elem_of_cons in Hft as [->|Hft]);
    [| | | | |by apply elem_of_nil in Hft].
  all: cbn -[is_str]; destruct v; simpl; (split; [split|]); try done; eauto.
  all: by intros [? ?].
Qed.

Lemma string_types_accept_strings_witness :
  _validate_value released (JStr "the day after tomorrow") = ok.
Proof.
  apply (string_types_accept_strings released
           (JStr "the day after tomorrow")).
  - apply elem_of_cons. right. apply elem_of_cons. right.
    apply elem_of_cons. right. apply elem_of_cons. by left.
  - by eexists.
Defined.

Lemma validate_value_unsupported f v :
  field_type f ∉ field_types →
  _validate_value f v = invalid "Unsupported field type.".
Proof.
  intros Hft. unfold _validate_value. cbv zeta. unfold existsb.
  rewrite !(eqb_of_not_elem _ _ _ Hft); [done|unfold field_types..].
  all: repeat first [by apply list_elem_of_here | apply list_elem_of_further].
Qed.

(** X2: a field whose type is none of the ten field types accepts no
    value: every value gets "Unsupported field type.", whatever the
    options are, and the loop of [clean] records it under the label of the
    field whenever the field is present in the record. *)
Theorem unsupported_type_rejects_values f :
  field_type f ∉ field_types →
  (∀ v, _validate_value f v = invalid "Unsupported field type.")
  ∧ (∀ R errors, present R (label f) = true →
       check_field R errors f
       = inr (<[label f := Msg "Unsupported field type."]> errors)).
Proof.
  intros Hft. split; [intros v; by apply validate_value_unsupported|].
  intros R errors Hp. unfold check_field. rewrite Hp, andb_false_r. simpl.
  by rewrite validate_value_unsupported.
Qed.

Lemma unsupported_type_rejects_values_witness :
  check_field {[ "colour" := JStr "red" ]} ∅ colour
  = inr {[ "colour" := Msg "Unsupported field type." ]}.
Proof.
  apply (unsupported_type_rejects_values colour).
  - vm_compute. intros H. repeat (inversion H as [|? ? ? H']; clear H; rename H' into H).
  - reflexivity.
Defined.

(** *** Fields that are not in the record *)

Lemma check_fields_absent d fs : ∀ errors,
  (∀ f, f ∈ fs → present d (label f) = false) →
  ∃ errors', check_fields d errors fs = inr errors'.
Proof.
  induction fs as [|f fs IH]; intros errors Hab; simpl; [by eexists|].
  unfold check_field. rewrite (Hab f) by left. simpl.
  destruct (required f); simpl; apply IH; intros g Hg; apply Hab; by right.
Qed.

(** X3: when no field of the schema is present in the record (the empty
    record, or a record that holds [null], the empty string or the empty
    list for its fields), the loop of [clean] ends with the error dict
    whatever the types and the options of the fields are: no value is
    checked.  The dict holds "This field is required." under the labels of
    the required fields and nothing else. *)
Theorem absent_fields_are_not_checked (S : list FieldDefinition) (R : gmap string json) :
  (∀ f, f ∈ S → present R (label f) = false) →
  ∃ errors, check_fields R ∅ S = inr errors
    ∧ ∀ k m, errors !! k = Some m ↔
        m = Msg "This field is required."
        ∧ ∃ f, f ∈ S ∧ label f = k ∧ required f = true.
Proof.
  intros Hab. destruct (check_fields_absent R S ∅ Hab) as [errors E].
  exists errors. split; [done|]. intros k m. split.
  - intros Hk. destruct (check_fields_sound _ _ _ _ E k m Hk) as [H|H].
    + by rewrite lookup_empty in H.
    + destruct H as (f & Hf & Hl & [(Hr & _ & ->)|(Hp & _)]).
      * eauto.
      * rewrite (Hab f Hf) in Hp. done.
  - intros (-> & f & Hf & <- & Hr).
    by apply (required_recorded R S ∅ errors f Hf Hr (Hab f Hf)).
Qed.

Lemma absent_fields_are_not_checked_witness :
  ∃ errors, check_fields ∅ ∅ [rating_low; required_title] = inr errors
    ∧ ∀ k m, errors !! k = Some m ↔
        m = Msg "This field is required."
        ∧ ∃ f, f ∈ [rating_low; required_title] ∧ label f = k
               ∧ required f = true.
Proof.
  apply (absent_fields_are_not_checked [rating_low; required_title] ∅).
  intros f Hf. unfold present. rewrite dom_empty_L.
  reflexivity.
Defined.

(** *** What [clean] accepts, and what it prints *)

Lemma unknown_keys_empty (S : list FieldDefinition) (d : gmap string json) :
  unknown_keys S d = ∅ ↔ ∀ k, k ∈ dom d → ∃ f, f ∈ S ∧ label f = k.
Proof.
  split.
  - intros Hu k Hk.
    destruct (decide (k ∈ (list_to_set (label <$> S) : gset string))) as [Hin|Hn].
    + apply elem_of_list_to_set, list_elem_of_fmap in Hin as (f & -> & Hf). eauto.
    + assert (k ∈ unknown_keys S d) as Hc.
      { unfold unknown_keys. rewrite dom_schema_of. by apply elem_of_difference. }
      rewrite Hu in Hc. by apply not_elem_of_empty in Hc.
  - intros Hall. apply leibniz_equiv, elem_of_equiv_empty. intros k Hk.
    apply elem_of_unknown_keys in Hk as [Hd Hn].
    destruct (Hall k Hd) as (f & Hf & Hl). by apply (Hn f).
Qed.

Lemma clean_accepts_known w u :
  (clean w).1 = inr u → known_keys_only (self w).
Proof.
  unfold clean, known_keys_only. intros H ht Hht. rewrite Hht in H.
  destruct (data (self w)) as [| | | | | |d]; try done.
  exists d. split; [done|]. apply unknown_keys_empty.
  destruct (size (unknown_keys (fields ht) d) =? 0)%nat eqn:E; [|done].
  by apply size_zero_iff in E.
Qed.

(** An entry without a hobby type is not validated, whatever its data
    is; with a hobby type, data that is no dict ends in an
    [AttributeError] that nothing catches. *)
Lemma hobby_type_guard :
  (∀ attrs out, attr_hobby_type attrs = None →
     validate attrs out = (inr attrs, out))
  ∧ (∀ S R out, (∀ d, R ≠ JObj d) →
       validate (attrs_of S R) out = (inl (Uncaught AttributeError), out)).
Proof.
  split.
  - intros attrs out H. unfold validate, clean, Entry_of. simpl. by rewrite H.
  - intros S R out HR. unfold validate, clean, attrs_of, Entry_of. simpl.
    destruct R; try done. by destruct (HR d).
Qed.

(** X4: [clean] prints at most once, and only when it returns: when it
    raises, the standard output is as before; when the record has no
    unknown key and the loop ends with the error dict, [clean] returns,
    having printed the dict when it is not empty and nothing when it is
    empty. *)
Theorem clean_prints_the_error_dict (w : world) :
  (∀ e, (clean w).1 = inl e → (clean w).2 = w)
  ∧ (∀ ht d errors,
       hobby_type (self w) = Some ht → data (self w) = JObj d →
       unknown_keys (fields ht) d = ∅ →
       check_fields d ∅ (fields ht) = inr errors →
       (clean w).1 = inr ()
       ∧ self (clean w).2 = self w
       ∧ (errors = ∅ → stdout (clean w).2 = stdout w)
       ∧ (errors ≠ ∅ → stdout (clean w).2 = (stdout w ++ [errors])%list)).
Proof.
  split.
  - intros e. unfold clean, print. repeat case_match; simpl; try done.
  - intros ht d errors Hht Hd Hu Hc. unfold clean, print.
    rewrite Hht, Hd, Hu, Hc. simpl.
    destruct (size errors =? 0)%nat eqn:E; simpl.
    + apply Nat.eqb_eq, map_size_empty_iff in E. by subst.
    + apply Nat.eqb_neq in E. repeat split; try done.
      intros ->. by rewrite map_size_empty in E.
Qed.

Lemma clean_prints_the_error_dict_witness :
  stdout (clean (world_of [rating] (JObj {[ "rating" := JInt 11 ]}) [])).2
  = [ {[ "rating" := MsgMax (JInt 10) ]} ].
Proof.
  apply (proj2 (clean_prints_the_error_dict
                  (world_of [rating] (JObj {[ "rating" := JInt 11 ]}) []))
               {| fields := [rating] |} {[ "rating" := JInt 11 ]}
               {[ "rating" := MsgMax (JInt 10) ]});
    try reflexivity.
  vm_compute. discriminate.
Defined.

(** X5: [validate] accepts only records that are dicts whose keys are all
    labels of fields of the schema; on a schema with well-typed options it
    accepts every such record, whether or not its values pass the checks
    of their fields; and data that is no dict (a list, a string, a number)
    ends in an [AttributeError] that nothing catches, whatever the schema
    is. *)
Theorem accepted_iff_known_keys (S : list FieldDefinition) (R : json) :
  (Accept (validate_result S R) →
     ∃ d, R = JObj d ∧ ∀ k, k ∈ dom d → ∃ f, f ∈ S ∧ label f = k)
  ∧ (Forall (λ f, well_typed f = true) S →
     ∀ d, R = JObj d → (∀ k, k ∈ dom d → ∃ f, f ∈ S ∧ label f = k) →
     Accept (validate_result S R))
  ∧ ((∀ d, R ≠ JObj d) →
     validate_result S R = inl (Uncaught AttributeError)).
Proof.
  split; [|split];
    [| |intros HR; unfold validate_result;
        by rewrite (proj2 hobby_type_guard S R [] HR)].
  - intros [attrs Ha]. unfold validate_result, validate in Ha.
    pose proof (clean_accepts_known
                  {| self := Entry_of (attrs_of S R); stdout := [] |}) as Hk.
    destruct (clean {| self := Entry_of (attrs_of S R); stdout := [] |})
      as [[e|u] w']; simpl in *.
    + destruct e; done.
    + destruct (Hk u eq_refl {| fields := S |} eq_refl) as (d & Hd & Hall).
      exists d. split; [done|]. exact Hall.
  - intros Hwt d -> Hall. apply unknown_keys_empty in Hall.
    destruct (check_fields_completes d S ∅ Hwt) as [errors E].
    rewrite (validate_known S d errors) by done. by eexists.
Qed.

Lemma accepted_iff_known_keys_witness :
  Accept (validate_result [rating] (JObj {[ "rating" := JInt 11 ]})).
Proof.
  apply (proj1 (proj2 (accepted_iff_known_keys [rating]
                         (JObj {[ "rating" := JInt 11 ]}))))
    with (d := {[ "rating" := JInt 11 ]}).
  - repeat constructor.
  - reflexivity.
  - intros k Hk. rewrite dom_singleton_L in Hk.
    apply elem_of_singleton in Hk as ->. exists rating. split; [by left|done].
Defined.

(** *** Writing entries *)

Lemma validate_returns_attrs attrs out vd out' :
  validate attrs out = (inr vd, out') →
  vd = attrs ∧ known_keys_only (Entry_of attrs).
Proof.
  unfold validate.
  pose proof (clean_accepts_known {| self := Entry_of attrs; stdout := out |})
    as Hk.
  destruct (clean {| self := Entry_of attrs; stdout := out |}) as [[e|u] w].
  - destruct e; done.
  - intros [= <- _]. split; [done|]. by apply (Hk u).
Qed.

(** X6: an entry created from attributes that [validate] has returned is
    appended to the table when the database accepts it, the rows before
    it untouched; its columns are those of the attributes, its tags those
    of the attributes or none; and when it has a hobby type, its data is
    a dict whose keys are all labels of fields of that hobby type. *)
Theorem created_entry_has_known_keys attrs out vd out' (table : list Saved) :
  validate attrs out = (inr vd, out') →
  ∃ r, create vd true table = inr (saved_entry r, (table ++ [r])%list)
       ∧ saved_entry r = Entry_of attrs
       ∧ saved_tags r = default [] (attr_tags attrs)
       ∧ known_keys_only (saved_entry r).
Proof.
  intros [-> Hk]%validate_returns_attrs.
  exists {| saved_entry := Entry_of attrs;
            saved_tags := default [] (attr_tags attrs) |}.
  split; [reflexivity|]. simpl. done.
Qed.

Lemma created_entry_has_known_keys_witness :
  ∃ r, create (attrs_of [rating] (JObj {[ "rating" := JInt 7 ]})) true []
       = inr (saved_entry r, [r])
       ∧ saved_entry r
         = Entry_of (attrs_of [rating] (JObj {[ "rating" := JInt 7 ]}))
       ∧ saved_tags r = []
       ∧ known_keys_only (saved_entry r).
Proof.
  apply (created_entry_has_known_keys
           (attrs_of [rating] (JObj {[ "rating" := JInt 7 ]})) []
           (attrs_of [rating] (JObj {[ "rating" := JInt 7 ]})) [] []).
  vm_compute. reflexivity.
Defined.

Lemma update_cases vd db_accepts st :
  let entry := set_attrs (instance st) vd in
  let c := clean {| self := entry; stdout := printed st |} in
  (∃ f, (c.1 ≠ inr () ∨ db_accepts = false) ∧ (update vd db_accepts st).1 = inl f
        ∧ (update vd db_accepts st).2
          = {| instance := entry; row := row st; printed := stdout c.2 |})
  ∨ (c.1 = inr () ∧ db_accepts = true
     ∧ (update vd db_accepts st).1 = inr entry
     ∧ (update vd db_accepts st).2
       = {| instance := entry;
            row := {| saved_entry := entry;
                      saved_tags := default (saved_tags (row st))
                                            (attr_tags vd) |};
            printed := stdout c.2 |}).
Proof.
  intros entry c. unfold update. fold entry. fold c.
  destruct c as [[e|[]] w]; simpl.
  - left. destruct e; eexists; (split; [by left|done]).
  - destruct db_accepts; [right; done|left]. eexists. split; [by right|done].
Qed.

(** X7: [update] sets the new attributes on the instance before it
    validates.  When it fails, in validation or in the database, the row
    in the database and its tags are as before, while the instance in
    memory already holds the new attributes.  When it returns, the row
    holds the instance with the new attributes over the old ones, the
    tags are replaced when the attributes have tags and kept otherwise,
    and data of an entry with a hobby type is a dict whose keys are all
    labels of fields of it. *)
Theorem update_saves_only_when_valid vd db_accepts st :
  instance (update vd db_accepts st).2 = set_attrs (instance st) vd
  ∧ (∀ f, (update vd db_accepts st).1 = inl f →
       row (update vd db_accepts st).2 = row st)
  ∧ (∀ e, (update vd db_accepts st).1 = inr e →
       e = set_attrs (instance st) vd
       ∧ saved_entry (row (update vd db_accepts st).2) = e
       ∧ saved_tags (row (update vd db_accepts st).2)
         = default (saved_tags (row st)) (attr_tags vd)
       ∧ known_keys_only e).
Proof.
  destruct (update_cases vd db_accepts st)
    as [(f & Hc & -> & ->)|(Hc & _ & -> & ->)]; simpl.
  - repeat split; done.
  - split; [done|]. split; [done|]. intros e [= <-]. repeat split.
    by apply (clean_accepts_known _ () Hc).
Qed.

(** X8: attributes without a hobby type pass [validate] whatever data
    they hold, but [update] checks that data against the hobby type of
    the instance: when the data is a dict with a key that is no label of
    that hobby type, [update] rejects with the unknown keys, prints
    nothing, and the row stays as it was. *)
Theorem partial_update_is_validated_by_update vd db_accepts st ht
    (d : gmap string json) :
  attr_hobby_type vd = None → attr_data vd = Some (JObj d) →
  hobby_type (instance st) = Some ht →
  unknown_keys (fields ht) d ≠ ∅ →
  (validate vd (printed st)).1 = inr vd
  ∧ (update vd db_accepts st).1
    = inl (NotValid (Rejected (DetailDict
        {[ "data" := [MsgUnknownKeys (sorted (unknown_keys (fields ht) d))] ]})))
  ∧ row (update vd db_accepts st).2 = row st
  ∧ printed (update vd db_accepts st).2 = printed st.
Proof.
  intros Hh Hd Hi Hu. split.
  - by rewrite (proj1 hobby_type_guard vd (printed st) Hh).
  - unfold update, set_attrs. rewrite Hh, Hd, Hi. simpl.
    destruct ht as [S].
    change {| self := {| hobby_type := Some {| fields := S |}; data := JObj d |};
              stdout := printed st |} with (world_of S (JObj d) (printed st)).
    unfold world_of. rewrite clean_unknown by done. simpl.
    by rewrite map_fmap_singleton.
Qed.

Lemma update_saves_only_when_valid_witness :
  row (update bogus_patch true a_store).2 = row a_store
  ∧ saved_entry (row (update rating_patch true a_store).2)
    = set_attrs a_movie rating_patch
  ∧ saved_tags (row (update rating_patch true a_store).2) = [2; 3].
Proof.
  destruct (update_saves_only_when_valid bogus_patch true a_store)
    as (_ & Hf & _).
  destruct (update_saves_only_when_valid rating_patch true a_store)
    as (_ & _ & Hs).
  split.
  - eapply Hf. vm_compute. reflexivity.
  - destruct (Hs (set_attrs a_movie rating_patch)) as (_ & He & Ht & _).
    + vm_compute. reflexivity.
    + split; [exact He|exact Ht].
Defined.

Lemma partial_update_is_validated_by_update_witness :
  (validate bogus_patch []).1 = inr bogus_patch
  ∧ (update bogus_patch true a_store).1
    = inl (NotValid (Rejected (DetailDict
        {[ "data" := [MsgUnknownKeys (sorted (unknown_keys movies bogus_only))] ]})))
  ∧ row (update bogus_patch true a_store).2 = row a_store
  ∧ printed (update bogus_patch true a_store).2 = [].
Proof.
  apply (partial_update_is_validated_by_update bogus_patch true a_store
           {| fields := movies |} bogus_only); try reflexivity.
  vm_compute. discriminate.
Defined.

(** *** The error dict as a whole *)

Lemma failure_of_spec d f m : failure_of d f = Some m ↔ field_fails d f m.
Proof.
  unfold failure_of, field_fails.
  destruct (present d (label f)) eqn:Hp.
  - destruct (_validate_value f (data_get d (label f))) as [[]|]; split;
      try done; try naive_solver.
  - destruct (required f); split; try done; naive_solver.
Qed.

Lemma check_field_ends d errors f :
  (∃ errors', check_field d errors f = inr errors') ↔ ¬ faults d f.
Proof.
  unfold faults.
  destruct (check_field_turn d errors f) as [Hr Hp|Hr Hp|u Hp Hv|m Hp Hv|e Hp Hv He].
  - split; [|by eexists]. intros _ [Hp' _]. congruence.
  - split; [|by eexists]. intros _ [Hp' _]. congruence.
  - split; [|by eexists]. intros _ (_ & e & He & _). congruence.
  - split; [|by eexists]. intros _ (_ & e & He & Hn).
    rewrite Hv in He. injection He as <-. by destruct (Hn m).
  - split; [by intros [? ?]|]. intros []. eauto.
Qed.

Lemma check_fields_ends d fs : ∀ errors,
  (∃ errors', check_fields d errors fs = inr errors')
  ↔ Forall (λ f, ¬ faults d f) fs.
Proof.
  induction fs as [|f fs IH]; intros errors; simpl.
  - split; [constructor|by eexists].
  - rewrite Forall_cons, <- (check_field_ends d errors f). split.
    + intros [errors' E].
      destruct (check_field d errors f) as [e|errors1]; simpl in E; [done|].
      split; [by eexists|]. apply (IH errors1). by eexists.
    + intros [[errors1 ->] Hfs]. simpl. by apply IH.
Qed.

Lemma check_fields_lookup d S errors :
  NoDup (label <$> S) → check_fields d ∅ S = inr errors →
  ∀ k m, errors !! k = Some m ↔ ∃ f, f ∈ S ∧ label f = k ∧ field_fails d f m.
Proof.
  intros Hnd E k m. split.
  - intros Hk. destruct (check_fields_sound _ _ _ _ E k m Hk) as [H|H]; [|done].
    by rewrite lookup_empty in H.
  - intros (f & Hf & <- & Hm).
    destruct (proj2 (check_fields_complete _ _ _ _ E) f m Hf Hm) as [m' Hm'].
    destruct (check_fields_sound _ _ _ _ E _ _ Hm') as [H|(g & Hg & Hl & Hgm)].
    + by rewrite lookup_empty in H.
    + rewrite (label_inj S g f Hnd Hg Hf Hl) in Hgm.
      by rewrite Hm', (field_fails_functional _ _ _ _ Hgm Hm).
Qed.

(** X9: the order of the fields of a schema does not matter when no two
    of them share a label: the unknown keys of a record are the same for
    every order, and when the loop of [clean] ends with an error dict for
    one order, it ends with the same dict for every other. *)
Theorem field_order_is_irrelevant (S S' : list FieldDefinition)
    (R : gmap string json) errors :
  S ≡ₚ S' → NoDup (label <$> S) →
  check_fields R ∅ S = inr errors →
  unknown_keys S' R = unknown_keys S R
  ∧ check_fields R ∅ S' = inr errors.
Proof.
  intros Hp Hnd E. split.
  - unfold unknown_keys. rewrite !dom_schema_of. f_equal.
    apply leibniz_equiv. intros k. rewrite !elem_of_list_to_set.
    by rewrite Hp.
  - assert (∃ errors', check_fields R ∅ S' = inr errors') as [errors' E'].
    { apply check_fields_ends. rewrite <- Hp. apply (check_fields_ends R S ∅).
      by eexists. }
    rewrite E'. f_equal. apply map_eq. intros k.
    assert (NoDup (label <$> S')) as Hnd' by (by rewrite <- Hp).
    pose proof (check_fields_lookup R S errors Hnd E k) as H1.
    pose proof (check_fields_lookup R S' errors' Hnd' E' k) as H2.
    assert (∀ m, errors' !! k = Some m ↔ errors !! k = Some m) as H.
    { intros m. rewrite H1, H2. by setoid_rewrite Hp. }
    destruct (errors' !! k) as [m'|] eqn:E1.
    + symmetry. by apply H.
    + destruct (errors !! k) as [m|] eqn:E2; [|done].
      by apply H.
Qed.

Lemma field_order_is_irrelevant_witness :
  unknown_keys [rating; title] {[ "rating" := JInt 11 ]}
  = unknown_keys [title; rating] {[ "rating" := JInt 11 ]}
  ∧ check_fields {[ "rating" := JInt 11 ]} ∅ [rating; title]
    = inr {[ "rating" := MsgMax (JInt 10) ]}.
Proof.
  apply (field_order_is_irrelevant [title; rating] [rating; title]).
  - apply Permutation_swap.
  - apply (bool_decide_unpack _). vm_compute. exact I.
  - vm_compute. reflexivity.
Defined.

(** X10: no failure is lost to another: when no two fields share a
    label, the keys of the error dict are the labels of the failing fields
    and the dict has as many entries as fields fail. *)
Theorem every_failure_is_reported (S : list FieldDefinition)
    (R : gmap string json) errors :
  NoDup (label <$> S) → check_fields R ∅ S = inr errors →
  dom errors
  = list_to_set (label <$> filter (λ f, is_Some (failure_of R f)) S)
  ∧ size errors = length (filter (λ f, is_Some (failure_of R f)) S).
Proof.
  intros Hnd E.
  assert (dom errors
          = list_to_set (label <$> filter (λ f, is_Some (failure_of R f)) S))
    as Hdom.
  { apply leibniz_equiv. intros k.
    rewrite elem_of_dom, elem_of_list_to_set, list_elem_of_fmap. split.
    - intros [m Hm]. apply (check_fields_lookup R S errors Hnd E) in Hm
        as (f & Hf & <- & Hm).
      exists f. split; [done|]. apply list_elem_of_filter. split; [|done].
      exists m. by apply failure_of_spec.
    - intros (f & -> & [[m Hm] Hf]%list_elem_of_filter). exists m.
      apply (check_fields_lookup R S errors Hnd E). exists f.
      split; [done|]. split; [done|]. by apply failure_of_spec. }
  split; [done|].
  rewrite <- size_dom, Hdom, size_list_to_set, length_fmap; [done|].
  apply (sublist_NoDup _ (label <$> S)); [done|].
  apply fmap_sublist, sublist_filter.
Qed.

Lemma every_failure_is_reported_witness :
  dom ({[ "rating" := MsgMax (JInt 10);
          "title" := Msg "Must be a string." ]} : gmap string message)
  = list_to_set
      (label <$> filter (λ f, is_Some (failure_of
                                 {[ "rating" := JInt 11; "title" := JInt 3 ]} f))
                        movies)
  ∧ size ({[ "rating" := MsgMax (JInt 10);
             "title" := Msg "Must be a string." ]} : gmap string message)
    = length (filter (λ f, is_Some (failure_of
                              {[ "rating" := JInt 11; "title" := JInt 3 ]} f))
                     movies).
Proof.
  apply (every_failure_is_reported movies
           {[ "rating" := JInt 11; "title" := JInt 3 ]}).
  - apply (bool_decide_unpack _). vm_compute. exact I.
  - vm_compute. reflexivity.
Defined.

Lemma check_fields_app d fs1 fs2 : ∀ errors,
  check_fields d errors (fs1 ++ fs2)
  = let* errors1 := check_fields d errors fs1 in check_fields d errors1 fs2.
Proof.
  induction fs1 as [|f fs1 IH]; intros errors; simpl; [done|].
  destruct (check_field d errors f); simpl; [done|apply IH].
Qed.

Lemma check_fields_keeps d fs k : ∀ errors errors',
  check_fields d errors fs = inr errors' →
  (∀ g m, g ∈ fs → label g = k → ¬ field_fails d g m) →
  errors' !! k = errors !! k.
Proof.
  induction fs as [|f fs IH]; intros errors errors' E Hno; simpl in E.
  - congruence.
  - destruct (check_field d errors f) as [e|errors1] eqn:E1; simpl in E; [done|].
    rewrite (IH errors1 errors' E); [|intros g m Hg; apply Hno; by right].
    destruct (field_fails_turn _ _ _ _ E1) as [[-> _]|(m & -> & Hm)]; [done|].
    rewrite lookup_insert_ne; [done|]. intros Hl.
    apply (Hno f m); [by left|done|done].
Qed.

(** X11: when several fields share a label, the last of them that fails
    has the entry: the error dict holds, under the label of a failing
    field, the message of that field when no field after it with the same
    label fails. *)
Theorem last_failure_wins (S1 S2 : list FieldDefinition) f
    (R : gmap string json) errors m :
  check_fields R ∅ (S1 ++ f :: S2) = inr errors →
  field_fails R f m →
  (∀ g m', g ∈ S2 → label g = label f → ¬ field_fails R g m') →
  errors !! label f = Some m.
Proof.
  intros E Hm Hno. rewrite check_fields_app in E.
  destruct (check_fields R ∅ S1) as [e|errors1]; simpl in E; [done|].
  destruct (check_field R errors1 f) as [e|errors2] eqn:E2; simpl in E; [done|].
  rewrite (check_fields_keeps R S2 (label f) errors2 errors E Hno).
  destruct (field_fails_turn _ _ _ _ E2) as [[_ Hn]|(m' & -> & Hm')].
  - by destruct (Hn m).
  - rewrite lookup_insert_eq. f_equal.
    apply (field_fails_functional _ _ _ _ Hm' Hm).
Qed.

Lemma last_failure_wins_witness :
  ({[ "year" := Msg "Must be a string." ]} : gmap string message)
    !! label year_text = Some (Msg "Must be a string.").
Proof.
  apply (last_failure_wins [] [year_number] year_text
           {[ "year" := JInt 1999 ]}).
  - vm_compute. reflexivity.
  - right. split; reflexivity.
  - intros g m' Hg _ Hm.
    apply elem_of_cons in Hg as [->|Hg]; [|by apply elem_of_nil in Hg].
    destruct Hm as [(Hr & _)|(_ & Hv)].
    + vm_compute in Hr. discriminate Hr.
    + vm_compute in Hv. discriminate Hv.
Defined.

(** *** List fields of another item type *)

Lemma check_items_other item_type items :
  str_eq "text" item_type = false → str_eq "number" item_type = false →
  str_eq "boolean" item_type = false →
  check_items item_type items = ok.
Proof.
  intros H1 H2 H3. induction items as [|i items IH]; [done|].
  simpl. by rewrite H1, H2, H3.
Qed.

(** X12: a list field whose item type is none of text, number and boolean
    (another string, [null], or no string at all) checks no item: it
    accepts every list whose length is within the bounds that are set,
    whatever the items are. *)
Theorem list_items_of_other_type_unchecked f items :
  field_type f = "list" → well_typed f = true →
  (∀ t, item_type_of f = JStr t → t ∉ ["text"; "number"; "boolean"]) →
  (_validate_value f (JList items) = ok ↔
     (∀ n, bound_of f "min_items" = Some n → (n <= inject_Z (len items))%Q)
     ∧ (∀ n, bound_of f "max_items" = Some n → (inject_Z (len items) <= n)%Q)).
Proof.
  intros Hft Hwt Hit.
  destruct (well_typed_list f Hft Hwt) as (d & Hd & Hmin & Hmax).
  destruct (options_dict_opts f d Hd) as (Ho & Hopt & Hity).
  rewrite validate_value_list by done. unfold bound_of. rewrite !Hopt.
  simpl. rewrite Ho. simpl. rewrite <- Hity.
  rewrite check_items_other.
  - destruct (range_check_spec (inject_Z (len items)) _ _
                MsgMinItems MsgMaxItems ok Hmin Hmax)
      as (_ & _ & [(H1 & H2 & ->)|(Hout & j & [-> | ->])]); split; done.
  - destruct (item_type_of f) as [| | | |t| |]; try done. unfold str_eq.
    apply String.eqb_neq. intros <-. apply (Hit _ eq_refl). by left.
  - destruct (item_type_of f) as [| | | |t| |]; try done. unfold str_eq.
    apply String.eqb_neq. intros <-. apply (Hit _ eq_refl). right. by left.
  - destruct (item_type_of f) as [| | | |t| |]; try done. unfold str_eq.
    apply String.eqb_neq. intros <-. apply (Hit _ eq_refl). right. right. by left.
Qed.

Lemma list_items_of_other_type_unchecked_witness :
  _validate_value dates (JList [JInt 1; JBool true]) = ok.
Proof.
  apply (list_items_of_other_type_unchecked dates [JInt 1; JBool true]
           eq_refl eq_refl).
  - intros t [= <-]. apply (bool_decide_unpack _). vm_compute. exact I.
  - split; intros n Hn; vm_compute in Hn; try discriminate Hn.
    injection Hn as <-. vm_compute. discriminate.
Defined.

(** *** Options that are no dict *)

Lemma get_no_dict f k dflt :
  options_dict f = None →
  get (if truthy (options f) then options f else JObj ∅) k dflt
  = inl AttributeError.
Proof.
  unfold options_dict.
  destruct (options f) as [|b|z|q|s|l|d]; try done;
    destruct (truthy _) eqn:Ht; done.
Qed.

Lemma range_check_no_attribute_error x minv maxv mk_min mk_max k :
  k ≠ inl AttributeError →
  range_check x minv maxv mk_min mk_max k ≠ inl AttributeError.
Proof.
  intros Hk. unfold range_check, num_lt, num_gt, bind.
  repeat case_match; congruence.
Qed.

Lemma any_not_in_no_attribute_error xs c :
  any_not_in xs c ≠ inl AttributeError.
Proof.
  induction xs as [|x xs IH]; simpl; [done|].
  unfold bind, str_in. repeat case_match; congruence.
Qed.

Lemma caught_no_attribute_error r : caught r → r ≠ inl AttributeError.
Proof. intros [[u ->]|[m ->]]; done. Qed.

(** X13: [_validate_value] ends in an [AttributeError] exactly when the
    options are truthy and no dict and the check reaches them: for every
    value of a select or multi-select field, for the numbers of a number
    field and for the lists of a list field.  A number field answers a
    value that is no number, and a list field a value that is no list,
    before it reads its options; the other types never read them. *)
Theorem attribute_error_iff f v :
  _validate_value f v = inl AttributeError ↔
  options_dict f = None
  ∧ ((field_type f = "number" ∧ is_number v = true)
     ∨ field_type f = "select" ∨ field_type f = "multi_select"
     ∨ (field_type f = "list" ∧ is_list v = true)).
Proof.
  destruct (existsb (String.eqb (field_type f)) ["text"; "long_text"; "url"]) eqn:E1.
  { assert (caught (_validate_value f v)) as Hc.
    { unfold _validate_value. cbv zeta. rewrite E1.
      apply caught_if; auto using caught_ok, caught_invalid. }
    split; [by intros ?%(caught_no_attribute_error _ Hc)|].
    simpl in E1. rewrite orb_false_r in E1.
    apply orb_true_iff in E1 as [E1|E1]; [|apply orb_true_iff in E1 as [E1|E1]];
      apply String.eqb_eq in E1; rewrite E1; naive_solver. }
  destruct (field_type f =? "boolean")%string eqn:E2.
  { apply String.eqb_eq in E2. rewrite validate_value_boolean by done.
    rewrite E2. split; [by destruct (negb (is_bool v))|naive_solver]. }
  destruct (field_type f =? "number")%string eqn:E3.
  { apply String.eqb_eq in E3. rewrite validate_value_number by done.
    rewrite E3. unfold is_number. cbv zeta.
    destruct (as_number v) as [x|] eqn:Hv; [|naive_solver].
    destruct (options_dict f) as [d|] eqn:Hd.
    - destruct (options_dict_opts f d Hd) as (Ho & _). rewrite Ho. simpl.
      split; [|naive_solver]. intros H.
      by apply (range_check_no_attribute_error x _ _ MsgMin MsgMax ok) in H.
    - rewrite get_no_dict by done. simpl. naive_solver. }
  destruct (existsb (String.eqb (field_type f)) ["date"; "datetime"]) eqn:E4.
  { assert (caught (_validate_value f v)) as Hc.
    { unfold _validate_value. cbv zeta. rewrite E1, E2, E3, E4.
      apply caught_if; auto using caught_ok, caught_invalid. }
    split; [by intros ?%(caught_no_attribute_error _ Hc)|].
    simpl in E4. rewrite orb_false_r in E4.
    apply orb_true_iff in E4 as [E4|E4];
      apply String.eqb_eq in E4; rewrite E4; naive_solver. }
  destruct (field_type f =? "select")%string eqn:E5.
  { apply String.eqb_eq in E5. rewrite validate_value_select by done.
    cbv zeta. destruct (options_dict f) as [d|] eqn:Hd.
    - destruct (options_dict_opts f d Hd) as (Ho & _). rewrite Ho. simpl.
      split; [|naive_solver]. unfold bind, str_in, invalid, ok.
      repeat case_match; congruence.
    - rewrite get_no_dict by done. simpl. naive_solver. }
  destruct (field_type f =? "multi_select")%string eqn:E6.
  { apply String.eqb_eq in E6. rewrite validate_value_multi_select by done.
    cbv zeta. destruct (options_dict f) as [d|] eqn:Hd.
    - destruct (options_dict_opts f d Hd) as (Ho & _). rewrite Ho. simpl.
      split; [|naive_solver]. unfold invalid, ok. intros H. exfalso.
      destruct (as_str_list v) as [xs|]; [|done].
      pose proof (any_not_in_no_attribute_error xs
                    (default (JList []) (d !! "choices"))) as Hn.
      unfold bind in H. repeat case_match; congruence.
    - rewrite get_no_dict by done. simpl. naive_solver. }
  destruct (field_type f =? "list")%string eqn:E7.
  { apply String.eqb_eq in E7. rewrite validate_value_list by done.
    rewrite E7. cbv zeta.
    destruct v as [| | | | |items|]; try (simpl; naive_solver).
    destruct (options_dict f) as [d|] eqn:Hd.
    - destruct (options_dict_opts f d Hd) as (Ho & _). rewrite Ho. simpl.
      split; [|naive_solver]. intros H.
      apply range_check_no_attribute_error in H; [done|].
      apply caught_no_attribute_error, check_items_caught.
    - rewrite get_no_dict by done. simpl. naive_solver. }
  split.
  - unfold _validate_value. cbv zeta. by rewrite E1, E2, E3, E4, E5, E6, E7.
  - apply String.eqb_neq in E3, E5, E6, E7. naive_solver.
Qed.

Lemma attribute_error_iff_witness :
  _validate_value status_list (JInt 1) = inl AttributeError.
Proof.
  apply (attribute_error_iff status_list (JInt 1)).
  split; [reflexivity|]. right. left. reflexivity.
Defined.

(** *** The validators of the serializers *)

Import Stdlib.Strings.Ascii.

Lemma is_substring_char c s :
  is_substring (String c "") s = true ↔ In c (String.list_ascii_of_string s).
Proof.
  induction s as [|a s IH]; simpl; [split; [done|by intros []]|].
  rewrite orb_true_iff, IH.
  destruct (Ascii.ascii_dec c a) as [->|Hne].
  - split; [by left|]. intros _. left. by destruct s.
  - split; [intros [?|?]; [done|by right]|].
    intros [?|?]; [congruence|by right].
Qed.

(** X14: [validate_key] accepts exactly the keys without a hyphen and
    returns them as they are; a key with a hyphen anywhere gets the
    message about snake case. *)
Theorem validate_key_refuses_hyphens key :
  (validate_key key = inr key ↔ ¬ In "-"%char (String.list_ascii_of_string key))
  ∧ (∀ k, validate_key key = inr k → k = key)
  ∧ (In "-"%char (String.list_ascii_of_string key) →
     validate_key key = inl "Use snake_case (no hyphens).").
Proof.
  unfold validate_key.
  destruct (is_substring "-" key) eqn:E.
  - apply is_substring_char in E. split; [split; [done|by intros []]|].
    split; [done|done].
  - assert (¬ In "-"%char (String.list_ascii_of_string key)) as Hn.
    { intros H. apply is_substring_char in H. congruence. }
    split; [done|]. split; [by intros k [= <-]|done].
Qed.

Lemma validate_key_refuses_hyphens_witness :
  validate_key "release-year" = inl "Use snake_case (no hyphens).".
Proof.
  apply (validate_key_refuses_hyphens "release-year").
  vm_compute. tauto.
Defined.

Lemma foreign_tags_nil user_id (tags : list Tag) :
  filter (λ t, tag_owner_id t ≠ user_id) tags = []
  ↔ Forall (λ t, tag_owner_id t = user_id) tags.
Proof.
  induction tags as [|t ts IH]; [split; [constructor|done]|].
  rewrite filter_cons, Forall_cons. case_decide as Hd.
  - split; [done|]. by intros [? _].
  - rewrite IH. tauto.
Qed.

(** X15: [validate_tags] returns the tags as they are exactly when each
    of them belongs to the user; otherwise it raises with the ids of the
    tags of other owners, all of them and only them, in the order of the
    tags. *)
Theorem validate_tags_owned_only user_id (tags : list Tag) :
  (validate_tags user_id tags = inr tags
   ↔ Forall (λ t, tag_owner_id t = user_id) tags)
  ∧ (∀ ts, validate_tags user_id tags = inr ts → ts = tags)
  ∧ (∀ bad, validate_tags user_id tags = inl bad →
       bad = tag_id <$> filter (λ t, tag_owner_id t ≠ user_id) tags
       ∧ bad ≠ []
       ∧ ∀ i, i ∈ bad ↔
           ∃ t, t ∈ tags ∧ tag_id t = i ∧ tag_owner_id t ≠ user_id).
Proof.
  unfold validate_tags.
  pose proof (foreign_tags_nil user_id tags) as Hnil.
  destruct (filter (λ t, tag_owner_id t ≠ user_id) tags) as [|t0 ts0] eqn:Ef;
    simpl.
  - split; [split; [intros _; by apply Hnil|done]|].
    split; [by intros ts [= <-]|done].
  - split; [split; [done|intros H%Hnil; done]|]. split; [done|].
    intros bad [= <-]. split; [done|]. split; [done|].
    intros i. rewrite <- fmap_cons, <- Ef, list_elem_of_fmap.
    setoid_rewrite list_elem_of_filter. naive_solver.
Qed.

Lemma validate_tags_owned_only_witness :
  validate_tags 1 [ {| tag_id := 10; tag_owner_id := 1 |};
                    {| tag_id := 11; tag_owner_id := 1 |} ]
  = inr [ {| tag_id := 10; tag_owner_id := 1 |};
          {| tag_id := 11; tag_owner_id := 1 |} ].
Proof.
  apply (validate_tags_owned_only 1).
  repeat constructor.
Defined.

(** *** Validation before and within [update] *)

(** X16: when the attributes carry both the hobby type and the data, the
    instance that [update] validates is the entry that [validate] has
    validated, whatever the instance was before: [update] fails exactly
    as [validate] fails on these attributes, and when [validate] accepts
    them it saves the entry of the attributes if the database accepts it
    and fails in the database otherwise. *)
Theorem full_update_repeats_validate vd db_accepts st ht R out :
  attr_hobby_type vd = Some ht → attr_data vd = Some R →
  (update vd db_accepts st).1
  = match (validate vd out).1 with
    | inl f => inl (NotValid f)
    | inr _ => if db_accepts then inr (Entry_of vd)
               else inl (NotSaved IntegrityError)
    end
  ∧ instance (update vd db_accepts st).2 = Entry_of vd.
Proof.
  intros Hh Hd.
  assert (set_attrs (instance st) vd = Entry_of vd) as Hs.
  { unfold set_attrs, Entry_of. by rewrite Hh, Hd. }
  unfold update, validate. rewrite Hs.
  pose proof (clean_result_self {| self := Entry_of vd; stdout := out |}
                {| self := Entry_of vd; stdout := printed st |} eq_refl) as H.
  destruct (clean {| self := Entry_of vd; stdout := printed st |}) as [r w1].
  destruct (clean {| self := Entry_of vd; stdout := out |}) as [r' w2].
  simpl in H. subst r'. destruct r as [[]|]; try done.
  by destruct db_accepts.
Qed.

Lemma full_update_repeats_validate_witness :
  (update (attrs_of movies (JObj bogus_record)) true a_store).1
  = match (validate (attrs_of movies (JObj bogus_record)) []).1 with
    | inl f => inl (NotValid f)
    | inr _ => inr (Entry_of (attrs_of movies (JObj bogus_record)))
    end
  ∧ instance (update (attrs_of movies (JObj bogus_record)) true a_store).2
    = Entry_of (attrs_of movies (JObj bogus_record)).
Proof.
  apply (full_update_repeats_validate (attrs_of movies (JObj bogus_record))
           true a_store {| fields := movies |} (JObj bogus_record) []);
    reflexivity.
Defined.

(** X17: the error dict with which the loop of [clean] ends is empty
    exactly when no field of the schema fails its check, also when fields
    share labels. *)
Theorem no_errors_iff_no_failure (S : list FieldDefinition)
    (R : gmap string json) errors :
  check_fields R ∅ S = inr errors →
  (errors = ∅ ↔ ∀ f, f ∈ S → failure_of R f = None).
Proof.
  intros E. split.
  - intros -> f Hf. destruct (failure_of R f) as [m|] eqn:Hm; [|done].
    apply failure_of_spec in Hm.
    destruct (proj2 (check_fields_complete _ _ _ _ E) f m Hf Hm) as [m' Hm'].
    by rewrite lookup_empty in Hm'.
  - intros Hno. apply map_empty. intros k.
    destruct (errors !! k) as [m|] eqn:Hk; [|done].
    destruct (check_fields_sound _ _ _ _ E k m Hk) as [H|(f & Hf & _ & Hm)].
    + by rewrite lookup_empty in H.
    + apply failure_of_spec in Hm. rewrite (Hno f Hf) in Hm. done.
Qed.

Lemma no_errors_iff_no_failure_witness :
  (∅ : gmap string message) = ∅ ↔
  ∀ f, f ∈ movies →
    failure_of {[ "title" := JStr "x"; "rating" := JInt 5 ]} f = None.
Proof.
  apply (no_errors_iff_no_failure movies
           {[ "title" := JStr "x"; "rating" := JInt 5 ]}).
  vm_compute. reflexivity.
Defined.

(** *** The exceptions of a check *)

Lemma plainly_ret {A} (a : A) : raises_plainly (inr a : exn + A).
Proof. by intros e. Qed.

Lemma plainly_invalid s : raises_plainly (invalid s).
Proof. intros e [= <-]. left. by eexists. Qed.

Lemma plainly_raise {A} m : raises_plainly (inl (ValidationError m) : exn + A).
Proof. intros e [= <-]. left. by eexists. Qed.

Lemma plainly_if {A} (b : bool) (r1 r2 : exn + A) :
  raises_plainly r1 → raises_plainly r2 →
  raises_plainly (if b then r1 else r2).
Proof. by destruct b. Qed.

Lemma plainly_bind {A B} (c : exn + A) (k : A → exn + B) :
  raises_plainly c → (∀ a, raises_plainly (k a)) → raises_plainly (bind c k).
Proof.
  intros Hc Hk. destruct c as [e|a]; simpl; [|apply Hk].
  intros e' [= <-]. by apply Hc.
Qed.

Lemma plainly_get opts k dflt : raises_plainly (get opts k dflt).
Proof. intros e. destruct opts; simpl; intros [= <-]; auto. Qed.

Lemma plainly_num_lt x b : raises_plainly (num_lt x b).
Proof. intros e. unfold num_lt. case_match; intros [= <-]; auto. Qed.

Lemma plainly_num_gt x b : raises_plainly (num_gt x b).
Proof. intros e. unfold num_gt. case_match; intros [= <-]; auto. Qed.

Lemma plainly_str_in s c : raises_plainly (str_in s c).
Proof. intros e. destruct c; simpl; intros [= <-]; auto. Qed.

Lemma plainly_any_not_in xs c : raises_plainly (any_not_in xs c).
Proof.
  induction xs as [|y xs IH]; simpl; [apply plainly_ret|].
  apply plainly_bind; [apply plainly_str_in|]. intros b.
  apply plainly_if; [apply plainly_ret|apply IH].
Qed.

Lemma plainly_check_items item_type items :
  raises_plainly (check_items item_type items).
Proof.
  induction items as [|i items IH]; simpl; [apply plainly_ret|].
  repeat apply plainly_if; auto using plainly_invalid.
Qed.

Lemma plainly_validate_value f v : raises_plainly (_validate_value f v).
Proof.
  unfold _validate_value. cbv zeta.
  repeat first
    [ apply plainly_ret | apply plainly_invalid | apply plainly_raise
    | apply plainly_get | apply plainly_num_lt | apply plainly_num_gt
    | apply plainly_str_in | apply plainly_any_not_in
    | apply plainly_check_items
    | apply plainly_if
    | apply plainly_bind; [|intros ?]
    | match goal with
      | |- raises_plainly (match ?x with _ => _ end) => destruct x
      end ].
Qed.

Lemma validate_value_no_dict_error f v x :
  _validate_value f v ≠ inl (ValidationErrorDict x).
Proof.
  intros H. destruct (plainly_validate_value f v _ H) as [[m ?]|[?|?]]; done.
Qed.

(** X18: a [ValidationError] of [_validate_value] always carries one
    message, never a dict of messages, so the [e.message] that the loop of
    [clean] reads is always there: when a turn of the loop ends in an
    exception, it is the exception with which [_validate_value] itself
    ended, and it is a [TypeError] or an [AttributeError]. *)
Theorem loop_faults_are_check_faults :
  (∀ f v x, _validate_value f v ≠ inl (ValidationErrorDict x))
  ∧ (∀ d errors f e, check_field d errors f = inl e →
       present d (label f) = true
       ∧ _validate_value f (data_get d (label f)) = inl e
       ∧ (e = TypeError ∨ e = AttributeError)).
Proof.
  split; [apply validate_value_no_dict_error|].
  intros d errors f e E.
  pose proof (check_field_turn d errors f) as T. rewrite E in T.
  inversion T as [| | | |e' Hp Hv Hne Heq]; subst.
  destruct e' as [m|x| |].
  - by destruct (Hne m).
  - by destruct (validate_value_no_dict_error f _ x Hv).
  - split; [done|]. split; [done|by left].
  - split; [done|]. split; [done|by right].
Qed.

Lemma loop_faults_are_check_faults_witness :
  present {[ "rating" := JInt 5 ]} (label rating_low) = true
  ∧ _validate_value rating_low (data_get {[ "rating" := JInt 5 ]}
                                         (label rating_low))
    = inl TypeError
  ∧ (TypeError = TypeError ∨ TypeError = AttributeError).
Proof.
  apply (proj2 loop_faults_are_check_faults {[ "rating" := JInt 5 ]} ∅).
  vm_compute. reflexivity.
Defined.
